(** * custom-element-boilerplate-setup: a shallow embedding of [main.js]

    The repository is one Node script that renames the placeholder
    identifier [custom-element] / [CustomElement] of a repository template.
    Two revisions of the script are embedded:

    - the top level of this file follows [unnamed/part_002], the latest
      revision (it has the [fileSuffix] key, separate template tables for
      file names and for contents, and [<] [>] in the escape class);
    - [Module MainJs] follows [src/main.js], the revision before it, for
      the functions that differ.

    Modelling conventions.
    - A JavaScript string is a [string]; characters are 8-bit and the case
      mappings are the ASCII ones (identity elsewhere).
    - A [Map] is the list of its entries in insertion order; [Map_set]
      overwrites in place or appends, as [Map.prototype.set] does.
    - A thrown exception is an [Abrupt] completion.
    - The file system is a finite map from paths to file contents, with a
      trace of the operations performed. *)

From Stdlib Require Import Ascii String List NArith ZArith Bool Lia.
From stdpp Require Import gmap strings.
Import ListNotations.

Local Open Scope string_scope.
Local Open Scope list_scope.

(** ** Completions *)

Inductive JsError : Type :=
| SyntaxError
| ENOENT.

Inductive Completion (A : Type) : Type :=
| Normal (a : A)
| Abrupt (e : JsError).

Arguments Normal {A} a.
Arguments Abrupt {A} e.

Definition cbind {A B : Type} (c : Completion A) (k : A -> Completion B)
  : Completion B :=
  match c with
  | Normal a => k a
  | Abrupt e => Abrupt e
  end.

Notation "'let?' x ':=' c 'in' k" := (cbind c (fun x => k))
  (at level 10, x name, c at level 100, k at level 200).

(** ** Characters *)

Definition code (c : ascii) : N := N_of_ascii c.

Definition isUpperAZ (c : ascii) : bool :=
  ((65 <=? code c) && (code c <=? 90))%N.

Definition isLowerAZ (c : ascii) : bool :=
  ((97 <=? code c) && (code c <=? 122))%N.

Definition isDigit (c : ascii) : bool :=
  ((48 <=? code c) && (code c <=? 57))%N.

Definition charToLowerCase (c : ascii) : ascii :=
  if isUpperAZ c then ascii_of_N (code c + 32) else c.

Definition charToUpperCase (c : ascii) : ascii :=
  if isLowerAZ c then ascii_of_N (code c - 32) else c.

(** White space and line terminators of [String.prototype.trim], within
    the 8-bit range: TAB, LF, VT, FF, CR, SP and NBSP. *)
Definition isWhiteSpace (c : ascii) : bool :=
  (((9 <=? code c) && (code c <=? 13)) || (code c =? 32) || (code c =? 160))%N.

Definition isLineTerminator (c : ascii) : bool :=
  ((code c =? 10) || (code c =? 13))%N.

(** ** String.prototype *)

Fixpoint toUpperCase (s : string) : string :=
  match s with
  | EmptyString => EmptyString
  | String c s' => String (charToUpperCase c) (toUpperCase s')
  end.


Fixpoint take (n : nat) (s : string) : string :=
  match n, s with
  | S n', String c s' => String c (take n' s')
  | _, _ => EmptyString
  end.

Fixpoint drop (n : nat) (s : string) : string :=
  match n, s with
  | S n', String _ s' => drop n' s'
  | _, _ => s
  end.

(** [s.slice(start, end)]: a negative index counts from the end; [-0] is
    [0], so [s.slice(0, -0)] is [s.slice(0, 0)]. *)
Definition sliceIndex (len i : Z) : Z :=
  if (i <? 0)%Z then Z.max (len + i) 0 else Z.min i len.

Definition slice (s : string) (start stop : Z) : string :=
  let len := Z.of_nat (String.length s) in
  let from := sliceIndex len start in
  let to := sliceIndex len stop in
  take (Z.to_nat (to - from)) (drop (Z.to_nat from) s).

(** [s.substring(1)] *)
Definition substring1 (s : string) : string := drop 1 s.

Fixpoint startsWith (s p : string) {struct p} : bool :=
  match p, s with
  | EmptyString, _ => true
  | String a p', String b s' => if Ascii.eqb a b then startsWith s' p' else false
  | String _ _, EmptyString => false
  end.

Definition endsWith (s suffix : string) : bool :=
  let n := String.length s in
  let k := String.length suffix in
  if (k <=? n)%nat then String.eqb (drop (n - k) s) suffix else false.

Fixpoint trimStart (s : string) : string :=
  match s with
  | String c s' => if isWhiteSpace c then trimStart s' else s
  | EmptyString => EmptyString
  end.

Fixpoint trimEnd (s : string) : string :=
  match s with
  | EmptyString => EmptyString
  | String c s' =>
      match trimEnd s' with
      | EmptyString => if isWhiteSpace c then EmptyString else String c EmptyString
      | t => String c t
      end
  end.

Definition trim (s : string) : string := trimEnd (trimStart s).

(** [s.split(sep)] for a one-character separator: always at least one
    segment, empty segments kept. *)
Fixpoint splitChar (sep : ascii) (s : string) : list string :=
  match s with
  | EmptyString => [EmptyString]
  | String c s' =>
      if Ascii.eqb c sep then EmptyString :: splitChar sep s'
      else match splitChar sep s' with
           | seg :: segs => String c seg :: segs
           | [] => [String c EmptyString]
           end
  end.

(** [xs.join(sep)] *)
Fixpoint joinWith (sep : string) (xs : list string) : string :=
  match xs with
  | [] => EmptyString
  | [x] => x
  | x :: rest => x ++ sep ++ joinWith sep rest
  end.

(** Truthiness of a string: only the empty string is falsy. *)
Definition truthy (s : string) : bool :=
  match s with
  | EmptyString => false
  | String _ _ => true
  end.

(** [a || b] on strings. *)
Definition orElse (a b : string) : string := if truthy a then a else b.

(** ** Regular expressions

    The script uses three regular expressions: the character class of
    [escapeRegex], [/[A-Z]{1}/g] of the dash-case derivation, and the
    run-time [new RegExp(escapeRegex(key), 'g')].  All three are sequences
    of one-character atoms, which is the fragment modelled here. *)

Inductive Atom : Type :=
| ALit (c : ascii)                       (* a pattern character, or an identity escape *)
| AAny                                   (* [.] *)
| AClass (ranges : list (ascii * ascii)) (* [[...]] as inclusive ranges *).

Definition Regex : Type := list Atom.

Definition inRange (c : ascii) (r : ascii * ascii) : bool :=
  ((code (fst r) <=? code c) && (code c <=? code (snd r)))%N.

Definition atomMatches (a : Atom) (c : ascii) : bool :=
  match a with
  | ALit x => Ascii.eqb x c
  | AAny => negb (isLineTerminator c)
  | AClass ranges => existsb (inRange c) ranges
  end.

(** The match of [r] at the start of [s], if there is one. *)
Fixpoint matchAt (r : Regex) (s : string) : option string :=
  match r with
  | [] => Some EmptyString
  | a :: r' =>
      match s with
      | EmptyString => None
      | String c s' =>
          if atomMatches a c
          then match matchAt r' s' with
               | Some m => Some (String c m)
               | None => None
               end
          else None
      end
  end.

(** [GetSubstitution] for a regular expression without capture groups:
    [$$], [$&], [$`] and [$'] are expanded, every other [$] is literal. *)
Fixpoint GetSubstitution (matched before after template : string) : string :=
  match template with
  | EmptyString => EmptyString
  | String "$" (String "$" t) =>
      String "$" (GetSubstitution matched before after t)
  | String "$" (String "&" t) =>
      matched ++ GetSubstitution matched before after t
  | String "$" (String "`" t) =>
      before ++ GetSubstitution matched before after t
  | String "$" (String "'" t) =>
      after ++ GetSubstitution matched before after t
  | String c t => String c (GetSubstitution matched before after t)
  end.

(** The second argument of [replace]: a replacement template or a
    callback on the matched text. *)
Inductive Replacer : Type :=
| ReplTemplate (template : string)
| ReplFun (callback : string -> string).

Definition replacement (rv : Replacer) (matched before after : string) : string :=
  match rv with
  | ReplTemplate t => GetSubstitution matched before after t
  | ReplFun f => f matched
  end.

(** [s.replace(r, rv)] for a global [r], scanning [s] from the left;
    [before] is the part of the subject already passed and [skip] counts
    the characters of the current match still to be consumed.  An empty
    match advances by one character. *)
Fixpoint replaceFrom (r : Regex) (rv : Replacer) (before : string) (skip : nat)
    (s : string) {struct s} : string :=
  match skip with
  | S k =>
      match s with
      | EmptyString => EmptyString
      | String c s' => replaceFrom r rv (before ++ String c EmptyString) k s'
      end
  | O =>
      match matchAt r s with
      | Some m =>
          replacement rv m before (drop (String.length m) s) ++
          match s with
          | EmptyString => EmptyString
          | String c s' =>
              match String.length m with
              | O => String c (replaceFrom r rv (before ++ String c EmptyString) 0 s')
              | S k => replaceFrom r rv (before ++ String c EmptyString) k s'
              end
          end
      | None =>
          match s with
          | EmptyString => EmptyString
          | String c s' =>
              String c (replaceFrom r rv (before ++ String c EmptyString) 0 s')
          end
      end
  end.

Definition replaceAll (r : Regex) (rv : Replacer) (s : string) : string :=
  replaceFrom r rv EmptyString 0 s.

(** [new RegExp(source)].  SyntaxCharacter of the pattern grammar. *)
Definition syntaxCharacters : string := "^$\.*+?()[]{}|".

Fixpoint inString (c : ascii) (s : string) : bool :=
  match s with
  | EmptyString => false
  | String x s' => Ascii.eqb x c || inString c s'
  end.

Definition isSyntaxCharacter (c : ascii) : bool := inString c syntaxCharacters.

(** A backslash before an ASCII character that is not a letter, a digit or
    [_] is an identity escape. *)
Definition isIdentityEscape (c : ascii) : bool :=
  (code c <? 128)%N &&
  negb (isUpperAZ c || isLowerAZ c || isDigit c || (code c =? 95)%N).

(** The constructor yields the atoms of a source made of pattern
    characters, identity escapes and [.]; any other source (a quantifier,
    a group, a class, an escape with a meaning of its own, a lone
    backslash) is outside the fragment and is reported as [SyntaxError]. *)
Fixpoint RegExp (source : string) : Completion Regex :=
  match source with
  | EmptyString => Normal []
  | String "\" rest =>
      match rest with
      | EmptyString => Abrupt SyntaxError
      | String c rest' =>
          if isIdentityEscape c
          then let? r := RegExp rest' in Normal (ALit c :: r)
          else Abrupt SyntaxError
      end
  | String "." rest => let? r := RegExp rest in Normal (AAny :: r)
  | String c rest =>
      if isSyntaxCharacter c then Abrupt SyntaxError
      else let? r := RegExp rest in Normal (ALit c :: r)
  end.

(** ** Map *)

Definition JsMap : Type := list (string * string).

(** [map.set(key, value)]: an existing key keeps its place. *)
Fixpoint Map_set (m : JsMap) (key value : string) : JsMap :=
  match m with
  | [] => [(key, value)]
  | (k, v) :: m' =>
      if String.eqb k key then (k, value) :: m'
      else (k, v) :: Map_set m' key value
  end.

(** [new Map(entries)] *)
Definition Map_new (entries : list (string * string)) : JsMap :=
  fold_left (fun m kv => Map_set m (fst kv) (snd kv)) entries [].

(** The double quote, for the templates that contain it. *)
Definition DQ : string := String (ascii_of_N 34) EmptyString.

(** ** The script, latest revision ([unnamed/part_002]) *)

Inductive substitutionEnum : Type :=
| filename
| contents.

Definition substitutionEnum_eqb (a b : substitutionEnum) : bool :=
  match a, b with
  | filename, filename | contents, contents => true
  | _, _ => false
  end.

(** [flags.includes(x)] *)
Definition includes (flags : list substitutionEnum) (x : substitutionEnum) : bool :=
  existsb (substitutionEnum_eqb x) flags.

Definition filesToUpdate : list (string * list substitutionEnum) :=
  [ ("custom-elements.json", [contents]);
    ("examples/index.html", [contents]);
    ("src/custom-element.ts", [filename; contents]);
    ("test/test.ts", [contents]);
    ("vscode.html-custom-data.json", [contents]);
    (".eslintrc.json", [contents]);
    ("package.json", [contents]) ].

Record CustomElementKey : Type := {
  file : string;
  fileSuffix : string;
  tag : string;
  tagName : string;
  className : string;
  suffix : string
}.

Definition fromCustomElementKey : CustomElementKey := {|
  file := "custom-element";
  fileSuffix := "element";
  tag := "custom-element";
  tagName := "CUSTOM-ELEMENT";
  className := "CustomElement";
  suffix := "Element"
|}.

(** [Object.entries(keys)], in property order. *)
Definition Object_entries (k : CustomElementKey) : list (string * string) :=
  [ ("file", file k); ("fileSuffix", fileSuffix k); ("tag", tag k);
    ("tagName", tagName k); ("className", className k); ("suffix", suffix k) ].

(** An object with the two properties [filename] and [contents]. *)
Record ByType (A : Type) : Type := {
  of_filename : A;
  of_contents : A
}.
Arguments of_filename {A} _.
Arguments of_contents {A} _.

Definition replacementTemplateMap : ByType JsMap := {|
  of_filename := Map_new
    [ ("{from:file}", "{to:file}-{to:fileSuffix}") ];
  of_contents := Map_new
    [ ("<{from:tag}>", "<{to:tag}>");
      ("</{from:tag}>", "</{to:tag}>");
      (DQ +:+ "{from:tag}" +:+ DQ, DQ +:+ "{to:tag}" +:+ DQ);
      ("'{from:tag}'", "'{to:tag}'");
      ("{from:tag} demo", "{to:tag} demo");
      ("src/{from:tag}'", "src/{to:tag}-{to:fileSuffix}'");
      ("src/{from:tag}.ts", "src/{to:tag}-{to:fileSuffix}.ts");
      ("{from:tagName}", "{to:tagName}");
      ("{from:className}{from:suffix}", "{to:className}{to:suffix}");
      (DQ +:+ "repository" +:+ DQ +:+ ": " +:+ DQ +:+ "github/{from:tag}-boilerplate" +:+ DQ,
       DQ +:+ "repository" +:+ DQ +:+ ": " +:+ DQ +:+ "github/{to:tag}-{to:fileSuffix}" +:+ DQ);
      (DQ +:+ "name" +:+ DQ +:+ ": " +:+ DQ +:+ "@github/{from:tag}-{from:fileSuffix}" +:+ DQ,
       DQ +:+ "name" +:+ DQ +:+ ": " +:+ DQ +:+ "{to:tag}-{to:fileSuffix}" +:+ DQ);
      (DQ +:+ "main" +:+ DQ +:+ ": " +:+ DQ +:+ "dist/{from:tag}.js" +:+ DQ,
       DQ +:+ "main" +:+ DQ +:+ ": " +:+ DQ +:+ "dist/{to:tag}-{to:fileSuffix}.js" +:+ DQ);
      (DQ +:+ "module" +:+ DQ +:+ ": " +:+ DQ +:+ "dist/{from:tag}.js" +:+ DQ,
       DQ +:+ "module" +:+ DQ +:+ ": " +:+ DQ +:+ "dist/{to:tag}-{to:fileSuffix}.js" +:+ DQ);
      (DQ +:+ "types" +:+ DQ +:+ ": " +:+ DQ +:+ "dist/{from:tag}s.d.ts" +:+ DQ,
       DQ +:+ "types" +:+ DQ +:+ ": " +:+ DQ +:+ "dist/{to:tag}-{to:fileSuffix}.d.ts" +:+ DQ) ]
|}.

(** *** Text manipulation *)

Definition ucFirst (text : string) : string :=
  match text with
  | EmptyString => text
  | String c _ => String (charToUpperCase c) (substring1 text)
  end.

Definition lcFirst (text : string) : string :=
  match text with
  | EmptyString => text
  | String c _ => String (charToLowerCase c) (substring1 text)
  end.

(** The class [[/\-\\^$*+?.()|[\]{}<>]] of [escapeRegex]. *)
Definition escapeClass : Atom :=
  AClass (map (fun c => (c, c)) (list_ascii_of_string "/-\^$*+?.()|[]{}<>")).

Definition escapeRegex (text : string) : string :=
  if truthy text
  then replaceAll [escapeClass] (ReplTemplate "\$&") text
  else text.

Definition trimSuffix (text suffix : string) : string :=
  if truthy text
  then if endsWith text suffix
       then slice text 0 (- Z.of_nat (String.length suffix))
       else text
  else text.

(** *** Naming *)

Definition calculateCustomElementNameFromRepositoryName (repositoryName : string)
  : string :=
  joinWith EmptyString (map (fun word => ucFirst word) (splitChar "-" repositoryName)).

(** The callback of the dash-case replacement: [-] and the lower-cased
    first character of the match. *)
Definition dashLower (matched : string) : string :=
  match matched with
  | EmptyString => "-undefined"  (* not reached: a match of [[A-Z]] has one character *)
  | String c _ => String "-" (String (charToLowerCase c) EmptyString)
  end.

Definition dashCaseOf (targetClassName : string) : string :=
  replaceAll [AClass [("A"%char, "Z"%char)]] (ReplFun dashLower)
    (lcFirst targetClassName).

Definition calculateTargetCustomElementKeysByClassName (targetClassName : string)
  : CustomElementKey :=
  let dashCase := dashCaseOf targetClassName in
  {| file := dashCase;
     fileSuffix := lcFirst (suffix fromCustomElementKey);
     tag := dashCase;
     tagName := toUpperCase dashCase;
     className := targetClassName;
     suffix := suffix fromCustomElementKey |}.

(** *** Substitution *)

Fixpoint setMapEntriesByPrefixedObjectKeys (replacementMap : JsMap)
    (prefix : string) (keyValue : list (string * string)) : JsMap :=
  match keyValue with
  | [] => replacementMap
  | (key, value) :: rest =>
      setMapEntriesByPrefixedObjectKeys
        (Map_set replacementMap ("{" +:+ prefix +:+ ":" +:+ key +:+ "}") value)
        prefix rest
  end.

Fixpoint replaceStringByMapParts (templateString : string) (replacementMap : JsMap)
  : Completion string :=
  match replacementMap with
  | [] => Normal templateString
  | (key, value) :: rest =>
      let? regexKey := RegExp (escapeRegex key) in
      replaceStringByMapParts
        (replaceAll regexKey (ReplTemplate value) templateString) rest
  end.

(** The inner loop of [calculateReplacementMap]: resolve every template
    pair and [set] it in [map]. *)
Fixpoint resolveTemplates (prefixedKeyMap : JsMap) (templates : JsMap) (map : JsMap)
  : Completion JsMap :=
  match templates with
  | [] => Normal map
  | (key, value) :: rest =>
      let? k := replaceStringByMapParts key prefixedKeyMap in
      let? v := replaceStringByMapParts value prefixedKeyMap in
      resolveTemplates prefixedKeyMap rest (Map_set map k v)
  end.

Definition prefixedKeys (fromKeys toKeys : CustomElementKey) : JsMap :=
  let prefixedKeyMap := [] in
  let prefixedKeyMap :=
    setMapEntriesByPrefixedObjectKeys prefixedKeyMap "from" (Object_entries fromKeys) in
  setMapEntriesByPrefixedObjectKeys prefixedKeyMap "to" (Object_entries toKeys).

Definition calculateReplacementMap (fromKeys toKeys : CustomElementKey)
  : Completion (ByType JsMap) :=
  let prefixedKeyMap := prefixedKeys fromKeys toKeys in
  let? f := resolveTemplates prefixedKeyMap (of_filename replacementTemplateMap) [] in
  let? c := resolveTemplates prefixedKeyMap (of_contents replacementTemplateMap) [] in
  Normal {| of_filename := f; of_contents := c |}.

(** *** The class name chosen at the prompt *)

Definition answer (promptAnswer customElementNameCandidate : string) : string :=
  trimSuffix
    (orElse (ucFirst (trim promptAnswer)) customElementNameCandidate)
    (suffix fromCustomElementKey).

(** ** Node's [path] module (POSIX)

    These are library functions, outside the repository; they are
    modelled from their documented behaviour on POSIX paths. *)

Definition path_sep : string := "/".

Definition isSlash (c : ascii) : bool := Ascii.eqb c "/".
Definition isDot (c : ascii) : bool := Ascii.eqb c ".".

Fixpoint revOnto (s acc : string) : string :=
  match s with
  | EmptyString => acc
  | String c s' => revOnto s' (String c acc)
  end.

Definition reverse (s : string) : string := revOnto s EmptyString.

Fixpoint dropWhile (p : ascii -> bool) (s : string) : string :=
  match s with
  | String c s' => if p c then dropWhile p s' else s
  | EmptyString => EmptyString
  end.

Fixpoint takeWhile (p : ascii -> bool) (s : string) : string :=
  match s with
  | String c s' => if p c then String c (takeWhile p s') else EmptyString
  | EmptyString => EmptyString
  end.

(** [path.basename(p)]: the last segment, trailing slashes ignored. *)
Definition path_basename (p : string) : string :=
  reverse (takeWhile (fun c => negb (isSlash c)) (dropWhile isSlash (reverse p))).

(** [path.dirname(p)] *)
Definition path_dirname (p : string) : string :=
  match p with
  | EmptyString => "."
  | String c0 body =>
      let r := dropWhile isSlash (reverse body) in
      match dropWhile (fun c => negb (isSlash c)) r with
      | EmptyString => if isSlash c0 then "/" else "."
      | String _ before =>
          match before with
          | EmptyString => if isSlash c0 then "//" else String c0 EmptyString
          | _ => String c0 (reverse before)
          end
      end
  end.

(** [path.extname(p)]: from the last dot of the base name to its end;
    empty when there is no dot, when the only dot starts the base name,
    and for [..]. *)
Definition path_extname (p : string) : string :=
  let base := path_basename p in
  let r := reverse base in
  let ext := takeWhile (fun c => negb (isDot c)) r in
  match dropWhile (fun c => negb (isDot c)) r with
  | EmptyString => EmptyString
  | String _ EmptyString => EmptyString
  | String _ (String _ _) =>
      if String.eqb base ".." then EmptyString
      else String "." (reverse ext)
  end.

(** One step of [normalizeString] on the stack of segments kept so far
    (innermost first). *)
Definition normalizeSegment (allowAboveRoot : bool) (stack : list string)
    (seg : string) : list string :=
  if String.eqb seg EmptyString || String.eqb seg "." then stack
  else if String.eqb seg ".." then
    match stack with
    | top :: below =>
        if String.eqb top ".." then seg :: stack else below
    | [] => if allowAboveRoot then [seg] else []
    end
  else seg :: stack.

Definition normalizeString (p : string) (allowAboveRoot : bool) : string :=
  joinWith "/" (rev (fold_left (normalizeSegment allowAboveRoot) (splitChar "/" p) [])).

(** [path.normalize(p)] *)
Definition path_normalize (p : string) : string :=
  match p with
  | EmptyString => "."
  | String c0 _ =>
      let isAbsolute := isSlash c0 in
      let trailingSeparator := endsWith p "/" in
      let q := normalizeString p (negb isAbsolute) in
      match q with
      | EmptyString =>
          if isAbsolute then "/" else if trailingSeparator then "./" else "."
      | _ =>
          let q := if trailingSeparator then q +:+ "/" else q in
          if isAbsolute then "/" +:+ q else q
      end
  end.

(** The repository name, given what [spawnSync] returned as [stdout] for
    [git config --get remote.origin.url] and for
    [git rev-parse --show-toplevel] (latest revision). *)
Definition tryFetchGitRepositoryName (gitOriginRemote gitPath : string) : string :=
  let gitSuffix := ".git" in
  let byOrigin := path_basename (trim gitOriginRemote) in
  let byOrigin :=
    if endsWith byOrigin gitSuffix
    then slice byOrigin 0 (- Z.of_nat (String.length gitSuffix))
    else byOrigin in
  if truthy byOrigin then byOrigin
  else
    let byPath := path_basename gitPath in
    byPath.

(** ** The file system

    [fs.existsSync] and the [fs.promises] calls of the script, each
    awaited before the next statement runs.  Only regular files are
    modelled.  A relative path is resolved against the working directory. *)

Inductive FsOp : Type :=
| OpReadFile (p : string)
| OpTruncate (p : string)
| OpWriteFile (p data : string)
| OpRename (oldPath newPath : string).

Record World : Type := {
  files : gmap string string;
  trace : list FsOp
}.

Definition IO (A : Type) : Type := World -> Completion A * World.

Definition ioret {A : Type} (a : A) : IO A := fun w => (Normal a, w).

Definition iobind {A B : Type} (m : IO A) (k : A -> IO B) : IO B :=
  fun w =>
    match m w with
    | (Normal a, w') => k a w'
    | (Abrupt e, w') => (Abrupt e, w')
    end.

Definition liftC {A : Type} (c : Completion A) : IO A := fun w => (c, w).

Notation "'do!' x ':=' m 'in' k" := (iobind m (fun x => k))
  (at level 10, x name, m at level 100, k at level 200).

Definition logged (op : FsOp) (w : World) (fs : gmap string string) : World :=
  {| files := fs; trace := trace w ++ [op] |}.

Section Script.

(** [process.cwd()] *)
Variable cwd : string.

Definition resolve (p : string) : string :=
  if startsWith p "/" then path_normalize p
  else path_normalize (cwd +:+ "/" +:+ p).

Definition existsSync (p : string) : IO bool :=
  fun w => (Normal (bool_decide (is_Some (files w !! resolve p))), w).

Definition readFile (p : string) : IO string :=
  fun w =>
    match files w !! resolve p with
    | Some data => (Normal data, logged (OpReadFile (resolve p)) w (files w))
    | None => (Abrupt ENOENT, w)
    end.

Definition truncate (p : string) : IO unit :=
  fun w =>
    match files w !! resolve p with
    | Some _ =>
        (Normal tt,
         logged (OpTruncate (resolve p)) w (<[resolve p := EmptyString]> (files w)))
    | None => (Abrupt ENOENT, w)
    end.

Definition writeFile (p data : string) : IO unit :=
  fun w =>
    (Normal tt,
     logged (OpWriteFile (resolve p) data) w (<[resolve p := data]> (files w))).

Definition rename (oldPath newPath : string) : IO unit :=
  fun w =>
    match files w !! resolve oldPath with
    | Some data =>
        (Normal tt,
         logged (OpRename (resolve oldPath) (resolve newPath)) w
           (<[resolve newPath := data]> (delete (resolve oldPath) (files w))))
    | None => (Abrupt ENOENT, w)
    end.

(** *** File updates, latest revision *)

Definition getFileFullPath (relativePath : string) : string :=
  path_normalize (cwd +:+ path_sep +:+ relativePath).

Definition calculateTargetFileFullPath (fromFullPath : string)
    (replacementMap : JsMap) : Completion string :=
  let directory := path_dirname fromFullPath in
  let basename := path_basename fromFullPath in
  let extension := path_extname basename in
  let fileName := slice basename 0 (- Z.of_nat (String.length extension)) in
  let? fileNameReplacement := replaceStringByMapParts fileName replacementMap in
  Normal (directory +:+ path_sep +:+ fileNameReplacement +:+ extension).

Definition replaceFileName (fromFullPath targetFullPath : string) : IO unit :=
  do! found := existsSync fromFullPath in
  if negb found then ioret tt
  else rename fromFullPath targetFullPath.

Definition replaceFileContents (fileFullPath : string) (replacementMap : JsMap)
  : IO unit :=
  do! found := existsSync fileFullPath in
  if negb found then ioret tt
  else
    do! fileContent := readFile fileFullPath in
    do! updatedFileContent :=
      liftC (replaceStringByMapParts fileContent replacementMap) in
    do! _ := truncate fileFullPath in
    writeFile fileFullPath updatedFileContent.

(** The body of the [for] loop over [filesToUpdate]. *)
Definition updateEntry (replacementMap : ByType JsMap)
    (fileRelativePath : string) (flags : list substitutionEnum) : IO unit :=
  let fromFileFullPath := getFileFullPath fileRelativePath in
  do! _ :=
    (if includes flags contents
     then replaceFileContents fromFileFullPath (of_contents replacementMap)
     else ioret tt) in
  if negb (includes flags filename) then ioret tt
  else
    do! targetFullPath :=
      liftC (calculateTargetFileFullPath fromFileFullPath
               (of_filename replacementMap)) in
    replaceFileName fromFileFullPath targetFullPath.

Fixpoint updateFiles (replacementMap : ByType JsMap)
    (entries : list (string * list substitutionEnum)) : IO unit :=
  match entries with
  | [] => ioret tt
  | (fileRelativePath, flags) :: rest =>
      do! _ := updateEntry replacementMap fileRelativePath flags in
      updateFiles replacementMap rest
  end.

(** The script from the prompt answer on: derive the keys, build the
    substitution maps, update the files of the manifest. *)
Definition setup (repositoryName promptAnswer : string) : IO unit :=
  let customElementNameCandidate :=
    calculateCustomElementNameFromRepositoryName repositoryName in
  let answer := answer promptAnswer customElementNameCandidate in
  let toCustomElementKeys := calculateTargetCustomElementKeysByClassName answer in
  do! replacementMap :=
    liftC (calculateReplacementMap fromCustomElementKey toCustomElementKeys) in
  updateFiles replacementMap filesToUpdate.

End Script.

(** ** The script, previous revision ([src/main.js])

    [ucFirst], [lcFirst], the candidate name, the dash-case derivation and
    [setMapEntriesByPrefixedObjectKeys] are the same text in both
    revisions; the definitions below are those that differ. *)

Module MainJs.

Record CustomElementKey : Type := {
  file : string;
  tag : string;
  tagName : string;
  className : string;
  suffix : string
}.

Definition fromCustomElementKey : CustomElementKey := {|
  file := "custom-element";
  tag := "custom-element";
  tagName := "CUSTOM-ELEMENT";
  className := "CustomElement";
  suffix := "Element"
|}.

Definition Object_entries (k : CustomElementKey) : list (string * string) :=
  [ ("file", file k); ("tag", tag k); ("tagName", tagName k);
    ("className", className k); ("suffix", suffix k) ].

Definition replacementTemplateMap : JsMap := Map_new
  [ ("{from:file}s", "{to:file}");
    ("{from:file}", "{to:file}");
    ("{from:tag}", "{to:tag}");
    ("{from:tagName}", "{to:tagName}");
    ("{from:className}{from:suffix}", "{to:className}{to:suffix}") ].

Definition filesToUpdate : list (string * list substitutionEnum) :=
  [ ("custom-elements.json", [filename; contents]);
    ("custom-elements-manifest.config.js", [filename]);
    ("examples/index.html", [contents]);
    ("src/custom-element.ts", [filename; contents]);
    ("test/test.ts", [contents]) ].

(** The class [[/\-\\^$*+?.()|[\]{}]] of [escapeRegex]. *)
Definition escapeClass : Atom :=
  AClass (map (fun c => (c, c)) (list_ascii_of_string "/-\^$*+?.()|[]{}")).

Definition escapeRegex (text : string) : string :=
  replaceAll [escapeClass] (ReplTemplate "\$&") text.

Definition trimSuffix (text suffix : string) : string :=
  if endsWith text suffix
  then slice text 0 (- Z.of_nat (String.length suffix))
  else text.

Definition calculateTargetCustomElementKeysByClassName (targetClassName : string)
  : CustomElementKey :=
  let dashCase := dashCaseOf targetClassName in
  {| file := dashCase;
     tag := dashCase;
     tagName := toUpperCase dashCase;
     className := targetClassName;
     suffix := suffix fromCustomElementKey |}.

Fixpoint replaceStringByMapParts (templateString : string) (replacementMap : JsMap)
  : Completion string :=
  match replacementMap with
  | [] => Normal templateString
  | (key, value) :: rest =>
      let? regexKey := RegExp (escapeRegex key) in
      replaceStringByMapParts
        (replaceAll regexKey (ReplTemplate value) templateString) rest
  end.

Fixpoint resolveTemplates (prefixedKeyMap : JsMap) (templates : JsMap) (map : JsMap)
  : Completion JsMap :=
  match templates with
  | [] => Normal map
  | (key, value) :: rest =>
      let? k := replaceStringByMapParts key prefixedKeyMap in
      let? v := replaceStringByMapParts value prefixedKeyMap in
      resolveTemplates prefixedKeyMap rest (Map_set map k v)
  end.

Definition prefixedKeys (fromKeys toKeys : CustomElementKey) : JsMap :=
  let prefixedKeyMap := [] in
  let prefixedKeyMap :=
    setMapEntriesByPrefixedObjectKeys prefixedKeyMap "from" (Object_entries fromKeys) in
  setMapEntriesByPrefixedObjectKeys prefixedKeyMap "to" (Object_entries toKeys).

Definition calculateReplacementMap (fromKeys toKeys : CustomElementKey)
  : Completion JsMap :=
  resolveTemplates (prefixedKeys fromKeys toKeys) replacementTemplateMap [].

Definition answer (promptAnswer customElementNameCandidate : string) : string :=
  trimSuffix
    (orElse (ucFirst (trim promptAnswer)) customElementNameCandidate)
    (suffix fromCustomElementKey).

(** The repository name from the two [stdout] texts: the last four
    characters of the base name are cut off without a test. *)
Definition tryFetchGitRepositoryName (gitOriginRemote gitPath : string) : string :=
  let byOrigin :=
    slice (path_basename (trim gitOriginRemote)) 0 (- Z.of_nat (String.length ".git")) in
  if truthy byOrigin then byOrigin
  else
    let byPath := path_basename gitPath in
    byPath.

Section Script.

Variable cwd : string.

Definition calculateTargetFileFullPath (fromFilePath : string)
    (replacementMap : JsMap) : Completion string :=
  let fromFullPath := path_normalize (cwd +:+ path_sep +:+ fromFilePath) in
  let directory := path_dirname fromFullPath in
  let basename := path_basename fromFullPath in
  let extension := path_extname basename in
  let fileName := slice basename 0 (- Z.of_nat (String.length extension)) in
  let? fileNameReplacement := replaceStringByMapParts fileName replacementMap in
  Normal (directory +:+ path_sep +:+ fileNameReplacement +:+ extension).

Definition replaceFileName (fromFullPath targetFullPath : string) : IO unit :=
  do! found := existsSync cwd fromFullPath in
  if negb found then ioret tt
  else rename cwd fromFullPath targetFullPath.

Definition replaceFileContents (fileFullPath : string) (replacementMap : JsMap)
  : IO unit :=
  do! found := existsSync cwd fileFullPath in
  if negb found then ioret tt
  else
    do! fileContent := readFile cwd fileFullPath in
    do! updatedFileContent :=
      liftC (replaceStringByMapParts fileContent replacementMap) in
    do! _ := truncate cwd fileFullPath in
    writeFile cwd fileFullPath updatedFileContent.

(** The body of the [for] loop over [filesToUpdate]: the target path
    is computed first, the file is renamed, and the contents are then
    rewritten at the target path. *)
Definition updateEntry (replacementMap : JsMap)
    (key : string) (value : list substitutionEnum) : IO unit :=
  do! targetFullPath := liftC (calculateTargetFileFullPath key replacementMap) in
  do! _ :=
    (if includes value filename
     then replaceFileName key targetFullPath
     else ioret tt) in
  if includes value contents
  then replaceFileContents targetFullPath replacementMap
  else ioret tt.

Fixpoint updateFiles (replacementMap : JsMap)
    (entries : list (string * list substitutionEnum)) : IO unit :=
  match entries with
  | [] => ioret tt
  | (key, value) :: rest =>
      do! _ := updateEntry replacementMap key value in
      updateFiles replacementMap rest
  end.

End Script.

End MainJs.

(** ** Definitions used to state the properties *)

(** Replace every character [c] of [s] by the string [f c]. *)
Fixpoint expandChars (f : ascii -> string) (s : string) : string :=
  match s with
  | EmptyString => EmptyString
  | String c s' => f c +:+ expandChars f s'
  end.

Definition single (c : ascii) : string := String c EmptyString.

(** What [escapeRegex] does to one character. *)
Definition escapedChars : string := "/-\^$*+?.()|[]{}<>".

Definition escapeChar (c : ascii) : string :=
  if inString c escapedChars then String "\" (single c) else single c.

Module MainJsChars.
Definition escapedChars : string := "/-\^$*+?.()|[]{}".

Definition escapeChar (c : ascii) : string :=
  if inString c escapedChars then String "\" (single c) else single c.
End MainJsChars.

(** The regular expression that matches exactly the text [k]. *)
Definition literal (k : string) : Regex := map ALit (list_ascii_of_string k).

(** [k] occurs somewhere in [s]. *)
Fixpoint occursIn (k s : string) : bool :=
  startsWith s k ||
  match s with
  | EmptyString => false
  | String _ s' => occursIn k s'
  end.


(** The replacement template has no [$], so it is inserted as it is. *)
Definition dollarFree (template : string) : bool := negb (inString "$" template).

Definition nonEmptyKeys (m : JsMap) : Prop :=
  Forall (fun kv => fst kv <> EmptyString) m.

(** What the dash-case derivation does to one character after the first. *)
Definition hyphenate (c : ascii) : string :=
  if isUpperAZ c then String "-" (single (charToLowerCase c)) else single c.

Definition hyphenateEach (s : string) : string := expandChars hyphenate s.

(** Split on hyphens, capitalize the first letter of each segment and
    concatenate: the way back from a tag to a class name. *)
Definition capitalize (word : string) : string :=
  match word with
  | EmptyString => EmptyString
  | String c rest => String (charToUpperCase c) rest
  end.

Definition rePascalCase (tag : string) : string :=
  joinWith EmptyString (map capitalize (splitChar "-" tag)).

(** The same, as one pass over the characters; [atStart] tells whether the
    next character starts a segment. *)
Fixpoint capitalizeSegments (atStart : bool) (s : string) : string :=
  match s with
  | EmptyString => EmptyString
  | String c s' =>
      if Ascii.eqb c "-" then capitalizeSegments true s'
      else String (if atStart then charToUpperCase c else c)
                  (capitalizeSegments false s')
  end.

Fixpoint allChars (p : ascii -> bool) (s : string) : bool :=
  match s with
  | EmptyString => true
  | String c s' => p c && allChars p s'
  end.

Definition isAlphaNum (c : ascii) : bool := isUpperAZ c || isLowerAZ c || isDigit c.

(** A PascalCase name: an upper-case letter followed by letters and digits. *)
Definition isPascalCase (name : string) : bool :=
  match name with
  | EmptyString => false
  | String c rest => isUpperAZ c && allChars isAlphaNum rest
  end.

(** A lower-case word: at least one letter, all of them lower-case. *)
Definition isLowerWord (word : string) : bool :=
  truthy word && allChars isLowerAZ word.

Definition noHyphen (s : string) : bool := negb (inString "-" s).

(** The result of the loop, as a total function. *)
Fixpoint substituted (t : string) (m : JsMap) : string :=
  match m with
  | [] => t
  | (k, v) :: rest => substituted (replaceAll (literal k) (ReplTemplate v) t) rest
  end.

(** What it means for a substitution function to apply the pairs one after
    the other: over a concatenated list it is the composition of the two
    runs, one pair is one global literal replacement, and the pairs
    [a -> b], [b -> c] turn [a] into [c]. *)
Definition SequentialSubstitution (f : string -> JsMap -> Completion string) : Prop :=
  (forall t, f t [] = Normal t) /\
  (forall t m1 m2, f t (m1 ++ m2) = let? t' := f t m1 in f t' m2) /\
  (forall t k v, f t [(k, v)] = Normal (replaceAll (literal k) (ReplTemplate v) t)) /\
  (forall t m, exists r, f t m = Normal r) /\
  f "a" [("a", "b"); ("b", "c")] = Normal "c" /\
  f "a" [("a", "b"); ("b", "c")] <> Normal "b".

(** The text the suffix is trimmed from: the trimmed answer with its first
    character in upper case, or the candidate when the answer is blank. *)
Definition chosenName (promptAnswer candidate : string) : string :=
  if truthy (trim promptAnswer) then ucFirst (trim promptAnswer) else candidate.

(** The result of [resolveTemplates], as a total function. *)
Fixpoint resolved (prefixedKeyMap templates map : JsMap) : JsMap :=
  match templates with
  | [] => map
  | (key, value) :: rest =>
      resolved prefixedKeyMap rest
        (Map_set map (substituted key prefixedKeyMap) (substituted value prefixedKeyMap))
  end.

(** Every template key resolves to a non-empty text. *)
Definition keysCheck (pkm templates : JsMap) : bool :=
  forallb (fun kv => truthy (substituted (fst kv) pkm)) templates.

(** Undo [escapeRegex]: drop a backslash and keep the character after it. *)
Fixpoint unescape (s : string) : string :=
  match s with
  | EmptyString => EmptyString
  | String "\" (String c rest) => String c (unescape rest)
  | String c rest => String c (unescape rest)
  end.



(** * Properties *)

(** ** Strings *)

#[local] Arguments String.append !_ _ / : simpl nomatch.

Lemma append_nil_r (s : string) : s +:+ EmptyString = s.
Proof. induction s as [|c s IH]; simpl; [reflexivity | now rewrite IH]. Qed.

Lemma append_assoc (a b c : string) : (a +:+ b) +:+ c = a +:+ (b +:+ c).
Proof. induction a as [|x a IH]; simpl; [reflexivity | now rewrite IH]. Qed.

Lemma length_append (a b : string) :
  String.length (a +:+ b) = (String.length a + String.length b)%nat.
Proof. induction a as [|x a IH]; simpl; [reflexivity | now rewrite IH]. Qed.

Lemma drop_length_append (a b : string) : drop (String.length a) (a +:+ b) = b.
Proof. induction a as [|x a IH]; simpl; [now destruct b | exact IH]. Qed.

Lemma take_length_append (a b : string) : take (String.length a) (a +:+ b) = a.
Proof. induction a as [|x a IH]; simpl; [now destruct b | now rewrite IH]. Qed.

Lemma startsWith_append (k rest : string) : startsWith (k +:+ rest) k = true.
Proof.
  induction k as [|c k IH]; simpl; [reflexivity |].
  now rewrite Ascii.eqb_refl.
Qed.

Lemma startsWith_inv (s k : string) :
  startsWith s k = true -> exists rest, s = k +:+ rest.
Proof.
  revert s; induction k as [|c k IH]; intros s H.
  - now exists s.
  - destruct s as [|d s]; simpl in H; [discriminate |].
    destruct (Ascii.eqb_spec c d) as [->|]; [| discriminate].
    destruct (IH _ H) as [rest ->]. now exists rest.
Qed.

(** ** Characters: facts checked on all 256 values *)

Ltac each_char c := destruct c as [[] [] [] [] [] [] [] []].

Lemma lower_not_upper (c : ascii) : isUpperAZ (charToLowerCase c) = false.
Proof. each_char c; reflexivity. Qed.

Lemma upper_lower (c : ascii) :
  isUpperAZ c = true -> charToUpperCase (charToLowerCase c) = c.
Proof. each_char c; intros H; try reflexivity; discriminate H. Qed.

Lemma upper_not_hyphen (c : ascii) : isUpperAZ c = true -> Ascii.eqb c "-" = false.
Proof. each_char c; intros H; try reflexivity; discriminate H. Qed.

Lemma lower_of_upper_not_hyphen (c : ascii) :
  isUpperAZ c = true -> Ascii.eqb (charToLowerCase c) "-" = false.
Proof. each_char c; intros H; try reflexivity; discriminate H. Qed.

Lemma alnum_not_hyphen (c : ascii) : isAlphaNum c = true -> Ascii.eqb c "-" = false.
Proof. each_char c; intros H; try reflexivity; discriminate H. Qed.

Lemma upper_of_upper (c : ascii) : isUpperAZ c = true -> charToUpperCase c = c.
Proof. each_char c; intros H; try reflexivity; discriminate H. Qed.

Lemma upper_of_lower_is_upper (c : ascii) :
  isLowerAZ c = true -> isUpperAZ (charToUpperCase c) = true.
Proof. each_char c; intros H; try reflexivity; discriminate H. Qed.

Lemma lower_not_hyphen (c : ascii) : isLowerAZ c = true -> Ascii.eqb c "-" = false.
Proof. each_char c; intros H; try reflexivity; discriminate H. Qed.

Lemma upper_eq_hyphen (c : ascii) :
  Ascii.eqb (charToUpperCase c) "-" = Ascii.eqb c "-".
Proof. each_char c; reflexivity. Qed.

Lemma escaped_is_identity_escape (c : ascii) :
  inString c escapedChars = true -> isIdentityEscape c = true.
Proof. each_char c; intros H; try reflexivity; discriminate H. Qed.

Lemma atomMatches_upper (c : ascii) :
  atomMatches (AClass [("A"%char, "Z"%char)]) c = isUpperAZ c.
Proof. each_char c; reflexivity. Qed.

Lemma atomMatches_escapeClass (c : ascii) :
  atomMatches escapeClass c = inString c escapedChars.
Proof. each_char c; reflexivity. Qed.

Lemma atomMatches_escapeClass_main (c : ascii) :
  atomMatches MainJs.escapeClass c = inString c MainJsChars.escapedChars.
Proof. each_char c; reflexivity. Qed.

Lemma main_escaped_is_escaped (c : ascii) :
  inString c MainJsChars.escapedChars = true -> inString c escapedChars = true.
Proof. each_char c; intros H; try reflexivity; discriminate H. Qed.

(** ** The constructor on escaped text *)

Lemma RegExp_escape (c : ascii) (rest : string) :
  isIdentityEscape c = true ->
  RegExp (String "\" (String c rest)) = let? r := RegExp rest in Normal (ALit c :: r).
Proof. intros H. simpl. now rewrite H. Qed.

Lemma RegExp_plain (c : ascii) (rest : string) :
  inString c MainJsChars.escapedChars = false ->
  RegExp (String c rest) = let? r := RegExp rest in Normal (ALit c :: r).
Proof. each_char c; intros H; try reflexivity; discriminate H. Qed.

(** ** The replacement engine *)

Lemma replaceFrom_atom (a : Atom) (rv : Replacer) (g : string -> string) :
  (forall m b a', replacement rv m b a' = g m) ->
  forall s before,
    replaceFrom [a] rv before 0 s =
    expandChars (fun c => if atomMatches a c then g (single c) else single c) s.
Proof.
  intros Hg s. induction s as [|c s IH]; intros before; [reflexivity |].
  cbn [replaceFrom matchAt expandChars].
  destruct (atomMatches a c).
  - cbn [String.length]. rewrite Hg, IH. reflexivity.
  - rewrite IH. reflexivity.
Qed.

Lemma escapeRegex_chars (text : string) :
  escapeRegex text = expandChars escapeChar text.
Proof.
  unfold escapeRegex. destruct text as [|c text]; [reflexivity |].
  cbn [truthy]. unfold replaceAll.
  rewrite (replaceFrom_atom escapeClass _ (fun m => String "\" (m +:+ EmptyString))) by reflexivity.
  generalize (String c text). intros s.
  induction s as [|d s IH]; [reflexivity |].
  cbn [expandChars]. rewrite IH. unfold escapeChar.
  now rewrite atomMatches_escapeClass.
Qed.

Lemma escapeRegex_chars_main (text : string) :
  MainJs.escapeRegex text = expandChars MainJsChars.escapeChar text.
Proof.
  unfold MainJs.escapeRegex, replaceAll.
  rewrite (replaceFrom_atom MainJs.escapeClass _ (fun m => String "\" (m +:+ EmptyString))) by reflexivity.
  induction text as [|d s IH]; [reflexivity |].
  cbn [expandChars]. rewrite IH. unfold MainJsChars.escapeChar.
  now rewrite atomMatches_escapeClass_main.
Qed.

Lemma literal_cons (c : ascii) (k : string) : literal (String c k) = ALit c :: literal k.
Proof. reflexivity. Qed.

(** Escaped with a class that holds at least the characters of the
    previous revision and at most those of the latest, a text compiles to
    the regular expression that matches it literally. *)
Lemma RegExp_escaped (cls : string) (k : string) :
  (forall c, inString c MainJsChars.escapedChars = true -> inString c cls = true) ->
  (forall c, inString c cls = true -> inString c escapedChars = true) ->
  RegExp (expandChars
            (fun c => if inString c cls then String "\" (single c) else single c) k)
  = Normal (literal k).
Proof.
  intros Hlo Hhi. induction k as [|c k IH]; [reflexivity |].
  cbn [expandChars]. destruct (inString c cls) eqn:E.
  - cbn [String.append single].
    rewrite RegExp_escape by (apply escaped_is_identity_escape; auto).
    rewrite IH. reflexivity.
  - cbn [String.append single]. rewrite RegExp_plain.
    + rewrite IH. reflexivity.
    + destruct (inString c MainJsChars.escapedChars) eqn:E'; [| reflexivity].
      apply Hlo in E'. congruence.
Qed.

Lemma RegExp_escapeRegex (k : string) : RegExp (escapeRegex k) = Normal (literal k).
Proof.
  rewrite escapeRegex_chars. apply (RegExp_escaped escapedChars); auto.
  apply main_escaped_is_escaped.
Qed.

Lemma RegExp_escapeRegex_main (k : string) :
  RegExp (MainJs.escapeRegex k) = Normal (literal k).
Proof.
  rewrite escapeRegex_chars_main. apply (RegExp_escaped MainJsChars.escapedChars); auto.
  apply main_escaped_is_escaped.
Qed.

Lemma matchAt_literal (k s : string) :
  matchAt (literal k) s = if startsWith s k then Some k else None.
Proof.
  revert s. induction k as [|c k IH]; intros s; [reflexivity |].
  rewrite literal_cons. destruct s as [|d s]; [reflexivity |].
  cbn [matchAt atomMatches startsWith].
  destruct (Ascii.eqb_spec c d) as [->|]; [| reflexivity].
  rewrite IH. now destruct (startsWith s k).
Qed.

(** ** One substitution step, and the two revisions agree *)

Lemma replaceStringByMapParts_cons (t k v : string) (rest : JsMap) :
  replaceStringByMapParts t ((k, v) :: rest) =
  replaceStringByMapParts (replaceAll (literal k) (ReplTemplate v) t) rest.
Proof. cbn [replaceStringByMapParts]. now rewrite RegExp_escapeRegex. Qed.

Lemma replaceStringByMapParts_main (t : string) (m : JsMap) :
  MainJs.replaceStringByMapParts t m = replaceStringByMapParts t m.
Proof.
  revert t. induction m as [|[k v] m IH]; intros t; [reflexivity |].
  rewrite replaceStringByMapParts_cons. cbn [MainJs.replaceStringByMapParts].
  rewrite RegExp_escapeRegex_main. cbn [cbind]. apply IH.
Qed.

Lemma replaceStringByMapParts_total (t : string) (m : JsMap) :
  replaceStringByMapParts t m = Normal (substituted t m).
Proof.
  revert t. induction m as [|[k v] m IH]; intros t; [reflexivity |].
  rewrite replaceStringByMapParts_cons. apply IH.
Qed.

Lemma substituted_app (t : string) (m1 m2 : JsMap) :
  substituted t (m1 ++ m2) = substituted (substituted t m1) m2.
Proof.
  revert t. induction m1 as [|[k v] m1 IH]; intros t; [reflexivity |].
  cbn [app substituted]. apply IH.
Qed.

(** ** Literal replacement *)

Lemma replaceFrom_absent (k : string) (rv : Replacer) (s : string) :
  occursIn k s = false ->
  forall before, replaceFrom (literal k) rv before 0 s = s.
Proof.
  induction s as [|c s IH]; intros H before.
  - cbn [replaceFrom]. rewrite matchAt_literal.
    cbn [occursIn] in H. apply orb_false_iff in H as [-> _]. reflexivity.
  - cbn [occursIn] in H. apply orb_false_iff in H as [H1 H2].
    cbn [replaceFrom]. rewrite matchAt_literal, H1. now rewrite IH.
Qed.




Lemma GetSubstitution_dollarFree (matched before after t : string) :
  dollarFree t = true -> GetSubstitution matched before after t = t.
Proof.
  unfold dollarFree. induction t as [|c t IH]; intros H; [reflexivity |].
  cbn [inString] in H. apply negb_true_iff, orb_false_iff in H as [H1 H2].
  assert (E : GetSubstitution matched before after (String c t) =
              String c (GetSubstitution matched before after t)).
  { clear IH H2. destruct t as [|d t]; each_char c; try reflexivity; discriminate H1. }
  rewrite E, IH; [reflexivity |]. now rewrite H2.
Qed.


(** ** Sequential substitution *)

Lemma replaceStringByMapParts_sequential :
  SequentialSubstitution replaceStringByMapParts.
Proof.
  refine (conj _ (conj _ (conj _ (conj _ (conj _ _))))).
  - reflexivity.
  - intros t m1 m2. rewrite !replaceStringByMapParts_total. cbn [cbind].
    rewrite replaceStringByMapParts_total. now rewrite substituted_app.
  - intros t k v. now rewrite replaceStringByMapParts_cons.
  - intros t m. eexists. apply replaceStringByMapParts_total.
  - reflexivity.
  - discriminate.
Qed.

(** C1: [replaceStringByMapParts] applies the pairs in list order, each
    on the output of the one before: a run over [m1 ++ m2] is the run over
    [m1] followed by the run over [m2] on its result, a single pair is one
    global literal replacement, and [a -> b], [b -> c] on the text [a]
    gives [c], not [b].  It holds in both revisions of the script. *)
Theorem C1_sequential_substitution :
  SequentialSubstitution MainJs.replaceStringByMapParts /\
  SequentialSubstitution replaceStringByMapParts.
Proof.
  split; [| exact replaceStringByMapParts_sequential].
  destruct replaceStringByMapParts_sequential as (H0 & H1 & H2 & H3 & H4 & H5).
  refine (conj _ (conj _ (conj _ (conj _ (conj _ _))))).
  - reflexivity.
  - intros t m1 m2. rewrite !replaceStringByMapParts_main, H1.
    destruct (replaceStringByMapParts t m1); cbn [cbind]; [| reflexivity].
    now rewrite replaceStringByMapParts_main.
  - intros t k v. now rewrite replaceStringByMapParts_main.
  - intros t m. destruct (H3 t m) as [r Hr]. exists r.
    now rewrite replaceStringByMapParts_main.
  - reflexivity.
  - discriminate.
Qed.

(** ** Escaping and literal matching *)





(** ** Dash case *)

Lemma expandChars_ext (f g : ascii -> string) (s : string) :
  (forall c, f c = g c) -> expandChars f s = expandChars g s.
Proof. intros H. induction s as [|c s IH]; cbn [expandChars]; [| rewrite H, IH]; reflexivity. Qed.

Lemma expandChars_append (f : ascii -> string) (a b : string) :
  expandChars f (a +:+ b) = expandChars f a +:+ expandChars f b.
Proof.
  induction a as [|c a IH]; cbn [String.append expandChars]; [reflexivity |].
  now rewrite IH, append_assoc.
Qed.

Lemma dashCaseOf_cons (c : ascii) (rest : string) :
  dashCaseOf (String c rest) = String (charToLowerCase c) (hyphenateEach rest).
Proof.
  unfold dashCaseOf, replaceAll, lcFirst, substring1. cbn [drop].
  rewrite (replaceFrom_atom _ _ dashLower) by reflexivity.
  cbn [expandChars]. rewrite atomMatches_upper, lower_not_upper.
  cbn [single String.append]. f_equal.
  apply expandChars_ext. intros d. rewrite atomMatches_upper. reflexivity.
Qed.

Lemma hyphenateEach_upper_run (run : string) :
  allChars isUpperAZ run = true ->
  hyphenateEach run =
  expandChars (fun u => String "-" (single (charToLowerCase u))) run.
Proof.
  unfold hyphenateEach. induction run as [|c run IH]; intros H; [reflexivity |].
  cbn [allChars] in H. apply andb_true_iff in H as [Hc Hrun].
  cbn [expandChars]. rewrite IH by assumption. unfold hyphenate. now rewrite Hc.
Qed.

(** C10: after the first character, every upper-case letter gets a hyphen
    of its own: a run of consecutive capitals inside a class name becomes
    one hyphenated lower-case letter per capital (XMLHttp gives
    x-m-l-http), in both revisions of the script. *)
Theorem C10_each_capital_hyphenated (c : ascii) (pre run post : string) :
  allChars isUpperAZ run = true ->
  dashCaseOf (String c (pre +:+ run +:+ post)) =
    String (charToLowerCase c)
      (hyphenateEach pre +:+
       expandChars (fun u => String "-" (single (charToLowerCase u))) run +:+
       hyphenateEach post) /\
  tag (calculateTargetCustomElementKeysByClassName (String c (pre +:+ run +:+ post)))
    = dashCaseOf (String c (pre +:+ run +:+ post)) /\
  MainJs.tag
    (MainJs.calculateTargetCustomElementKeysByClassName (String c (pre +:+ run +:+ post)))
    = dashCaseOf (String c (pre +:+ run +:+ post)).
Proof.
  intros Hrun. split; [| split; reflexivity].
  rewrite dashCaseOf_cons. f_equal. unfold hyphenateEach.
  rewrite !expandChars_append.
  pose proof (hyphenateEach_upper_run run Hrun) as E. unfold hyphenateEach in E.
  now rewrite E.
Qed.

Lemma C10_each_capital_hyphenated_witness :
  dashCaseOf "XMLHttp" = "x-m-l-http" /\
  tag (calculateTargetCustomElementKeysByClassName "XMLHttp") = "x-m-l-http" /\
  MainJs.tag (MainJs.calculateTargetCustomElementKeysByClassName "XMLHttp")
    = "x-m-l-http".
Proof.
  destruct (C10_each_capital_hyphenated "X" EmptyString "MLH" "ttp" eq_refl)
    as (H1 & H2 & H3).
  split; [exact H1 |]. split; [exact (eq_trans H2 H1) | exact (eq_trans H3 H1)].
Defined.

(** C6: on the empty class name the derivation returns a record whose
    [file], [tag], [tagName] and [className] are empty and whose [suffix]
    and [fileSuffix] are the fixed [Element] and [element]; the previous
    revision, which has no [fileSuffix], agrees on the other fields. *)
Theorem C6_empty_class_name :
  calculateTargetCustomElementKeysByClassName EmptyString =
    {| file := EmptyString; fileSuffix := "element"; tag := EmptyString;
       tagName := EmptyString; className := EmptyString; suffix := "Element" |} /\
  MainJs.calculateTargetCustomElementKeysByClassName EmptyString =
    {| MainJs.file := EmptyString; MainJs.tag := EmptyString;
       MainJs.tagName := EmptyString; MainJs.className := EmptyString;
       MainJs.suffix := "Element" |}.
Proof. split; reflexivity. Qed.

(** ** Pascal case *)

Lemma ucFirst_capitalize (text : string) : ucFirst text = capitalize text.
Proof. now destruct text. Qed.

Lemma joinWith_empty_cons (x : string) (xs : list string) :
  joinWith EmptyString (x :: xs) = x +:+ joinWith EmptyString xs.
Proof. destruct xs; cbn [joinWith String.append]; [now rewrite append_nil_r | reflexivity]. Qed.

Lemma splitChar_cons (sep : ascii) (s : string) :
  exists seg segs, splitChar sep s = seg :: segs.
Proof.
  induction s as [|c s (seg & segs & IH)]; [now eexists _, _ |].
  cbn [splitChar]. destruct (Ascii.eqb c sep); [now eexists _, _ |].
  rewrite IH. now eexists _, _.
Qed.

Lemma capitalizeSegments_split (s : string) :
  forall seg segs, splitChar "-" s = seg :: segs ->
    capitalizeSegments true s =
      capitalize seg +:+ joinWith EmptyString (map capitalize segs) /\
    capitalizeSegments false s =
      seg +:+ joinWith EmptyString (map capitalize segs).
Proof.
  induction s as [|c s IH]; intros seg segs H.
  - cbn [splitChar] in H. injection H as <- <-. now split.
  - cbn [splitChar] in H. cbn [capitalizeSegments].
    destruct (splitChar_cons "-" s) as (seg' & segs' & E).
    destruct (IH _ _ E) as [IH1 IH2].
    destruct (Ascii.eqb c "-").
    + injection H as <- <-. rewrite E. cbn [map capitalize String.append].
      rewrite joinWith_empty_cons. now split.
    + rewrite E in H. injection H as <- <-.
      cbn [capitalize String.append]. rewrite IH2. now split.
Qed.

Lemma rePascalCase_segments (s : string) :
  rePascalCase s = capitalizeSegments true s.
Proof.
  unfold rePascalCase. destruct (splitChar_cons "-" s) as (seg & segs & E).
  rewrite (proj1 (capitalizeSegments_split s _ _ E)), E.
  cbn [map]. now rewrite joinWith_empty_cons.
Qed.

Lemma candidate_rePascalCase (repositoryName : string) :
  calculateCustomElementNameFromRepositoryName repositoryName =
  rePascalCase repositoryName.
Proof.
  unfold calculateCustomElementNameFromRepositoryName, rePascalCase.
  f_equal. apply map_ext. exact ucFirst_capitalize.
Qed.

Lemma capitalizeSegments_hyphenateEach (rest : string) :
  allChars isAlphaNum rest = true ->
  capitalizeSegments false (hyphenateEach rest) = rest.
Proof.
  unfold hyphenateEach. induction rest as [|c rest IH]; intros H; [reflexivity |].
  cbn [allChars] in H. apply andb_true_iff in H as [Hc Hrest].
  cbn [expandChars]. unfold hyphenate at 1. destruct (isUpperAZ c) eqn:U.
  - cbn [String.append single capitalizeSegments]. rewrite Ascii.eqb_refl.
    rewrite lower_of_upper_not_hyphen, upper_lower by assumption.
    now rewrite IH.
  - cbn [String.append single capitalizeSegments].
    rewrite alnum_not_hyphen by assumption. now rewrite IH.
Qed.

Lemma rePascalCase_dashCaseOf (name : string) :
  isPascalCase name = true -> rePascalCase (dashCaseOf name) = name.
Proof.
  destruct name as [|c rest]; [discriminate |]. cbn [isPascalCase].
  intros H. apply andb_true_iff in H as [Hc Hrest].
  rewrite dashCaseOf_cons, rePascalCase_segments. cbn [capitalizeSegments].
  rewrite lower_of_upper_not_hyphen, upper_lower by assumption.
  now rewrite capitalizeSegments_hyphenateEach.
Qed.

(** C5: for a PascalCase class name, splitting the derived [tag] on
    hyphens, capitalizing each segment and concatenating gives the class
    name back, in both revisions of the script. *)
Theorem C5_tag_round_trip (C : string) :
  isPascalCase C = true ->
  rePascalCase (tag (calculateTargetCustomElementKeysByClassName C)) = C /\
  rePascalCase (MainJs.tag (MainJs.calculateTargetCustomElementKeysByClassName C)) = C.
Proof. intros H. split; cbn [tag MainJs.tag calculateTargetCustomElementKeysByClassName MainJs.calculateTargetCustomElementKeysByClassName]; now apply rePascalCase_dashCaseOf. Qed.

Lemma C5_tag_round_trip_witness :
  tag (calculateTargetCustomElementKeysByClassName "FooBar") = "foo-bar" /\
  rePascalCase (tag (calculateTargetCustomElementKeysByClassName "FooBar")) = "FooBar" /\
  rePascalCase (MainJs.tag (MainJs.calculateTargetCustomElementKeysByClassName "FooBar"))
    = "FooBar".
Proof. split; [reflexivity |]. exact (C5_tag_round_trip "FooBar" eq_refl). Defined.

(** ** The candidate class name *)

Lemma splitChar_hyphenFree_append (w rest : string) :
  noHyphen w = true ->
  splitChar "-" (w +:+ String "-" rest) = w :: splitChar "-" rest.
Proof.
  unfold noHyphen. induction w as [|c w IH]; intros H.
  - reflexivity.
  - cbn [inString] in H. apply negb_true_iff, orb_false_iff in H as [Hc Hw].
    cbn [String.append splitChar]. rewrite Hc, IH; [reflexivity |].
    now rewrite Hw.
Qed.

Lemma splitChar_hyphenFree (w : string) :
  noHyphen w = true -> splitChar "-" w = [w].
Proof.
  unfold noHyphen. induction w as [|c w IH]; intros H.
  - reflexivity.
  - cbn [inString] in H. apply negb_true_iff, orb_false_iff in H as [Hc Hw].
    cbn [splitChar]. rewrite Hc, IH; [reflexivity |]. now rewrite Hw.
Qed.

Lemma splitChar_joinWith (w : string) (ws : list string) :
  Forall (fun x => noHyphen x = true) (w :: ws) ->
  splitChar "-" (joinWith "-" (w :: ws)) = w :: ws.
Proof.
  revert w. induction ws as [|w' ws IH]; intros w H.
  - apply splitChar_hyphenFree. now inversion H.
  - inversion H as [|? ? Hw Hrest]; subst.
    change (joinWith "-" (w :: w' :: ws))
      with (w +:+ String "-" (joinWith "-" (w' :: ws))).
    rewrite splitChar_hyphenFree_append by assumption. now rewrite IH.
Qed.

Lemma inString_append (c : ascii) (a b : string) :
  inString c (a +:+ b) = inString c a || inString c b.
Proof.
  induction a as [|x a IH]; cbn [String.append inString]; [reflexivity |].
  now rewrite IH, orb_assoc.
Qed.

Lemma allLower_noHyphen (w : string) : allChars isLowerAZ w = true -> noHyphen w = true.
Proof.
  unfold noHyphen. induction w as [|c w IH]; intros H; [reflexivity |].
  cbn [allChars] in H. apply andb_true_iff in H as [Hc Hw].
  cbn [inString]. rewrite lower_not_hyphen by assumption. now apply IH.
Qed.

Lemma lowerWord_noHyphen (w : string) : isLowerWord w = true -> noHyphen w = true.
Proof.
  unfold isLowerWord. intros H. apply andb_true_iff in H as [_ H].
  now apply allLower_noHyphen.
Qed.

Lemma allLower_allAlphaNum (w : string) :
  allChars isLowerAZ w = true -> allChars isAlphaNum w = true.
Proof.
  induction w as [|c w IH]; intros H; [reflexivity |].
  cbn [allChars] in *. apply andb_true_iff in H as [Hc Hw].
  unfold isAlphaNum at 1. rewrite Hc, orb_true_r. now apply IH.
Qed.

Lemma capitalize_lowerWord (w : string) :
  isLowerWord w = true ->
  isPascalCase (capitalize w) = true /\ noHyphen (capitalize w) = true.
Proof.
  unfold isLowerWord. destruct w as [|c w]; [discriminate |].
  cbn [truthy allChars andb capitalize isPascalCase]. intros H.
  apply andb_true_iff in H as [Hc Hw]. split.
  - rewrite upper_of_lower_is_upper by assumption. now apply allLower_allAlphaNum.
  - unfold noHyphen. cbn [inString].
    rewrite upper_eq_hyphen, lower_not_hyphen by assumption.
    now apply allLower_noHyphen.
Qed.

Lemma joinWith_capitalized_noHyphen (words : list string) :
  Forall (fun w => isLowerWord w = true) words ->
  noHyphen (joinWith EmptyString (map capitalize words)) = true.
Proof.
  induction 1 as [|w ws Hw _ IH]; [reflexivity |].
  cbn [map]. rewrite joinWith_empty_cons. unfold noHyphen in *.
  rewrite inString_append, negb_orb, IH, andb_true_r.
  apply (capitalize_lowerWord w Hw).
Qed.

Lemma joinWith_skips_empty (segs : list string) :
  joinWith EmptyString (map ucFirst segs) =
  joinWith EmptyString (map ucFirst (List.filter truthy segs)).
Proof.
  induction segs as [|seg segs IH]; [reflexivity |].
  cbn [map List.filter]. rewrite joinWith_empty_cons, IH.
  destruct seg as [|c seg]; cbn [truthy]; [reflexivity |].
  cbn [map]. now rewrite joinWith_empty_cons.
Qed.

(** C8: on lower-case words joined by hyphens the candidate is the
    concatenation of the words with their first letters capitalized, it
    has no hyphen, and every capitalized word is in PascalCase; on any
    input the empty segments can be left out without changing the result
    (custom-element-boilerplate gives CustomElementBoilerplate). *)
Theorem C8_candidate_class_name (words : list string) :
  Forall (fun w => isLowerWord w = true) words ->
  calculateCustomElementNameFromRepositoryName (joinWith "-" words) =
    joinWith EmptyString (map capitalize words) /\
  noHyphen (calculateCustomElementNameFromRepositoryName (joinWith "-" words)) = true /\
  Forall (fun w => isPascalCase (capitalize w) = true) words /\
  (forall s,
     calculateCustomElementNameFromRepositoryName s =
     joinWith EmptyString (map ucFirst (List.filter truthy (splitChar "-" s)))).
Proof.
  intros H.
  assert (E : calculateCustomElementNameFromRepositoryName (joinWith "-" words) =
              joinWith EmptyString (map capitalize words)).
  { rewrite candidate_rePascalCase. unfold rePascalCase.
    destruct words as [|w ws]; [reflexivity |].
    rewrite splitChar_joinWith; [reflexivity |].
    eapply List.Forall_impl; [| exact H]. exact lowerWord_noHyphen. }
  split; [exact E |]. split; [| split].
  - rewrite E. now apply joinWith_capitalized_noHyphen.
  - eapply List.Forall_impl; [| exact H]. intros w Hw. apply (capitalize_lowerWord w Hw).
  - intros s. unfold calculateCustomElementNameFromRepositoryName.
    apply joinWith_skips_empty.
Qed.

Lemma C8_candidate_class_name_witness :
  calculateCustomElementNameFromRepositoryName "custom-element-boilerplate" =
    "CustomElementBoilerplate" /\
  calculateCustomElementNameFromRepositoryName "custom--element-" = "CustomElement".
Proof.
  split.
  - apply (C8_candidate_class_name ["custom"; "element"; "boilerplate"]).
    repeat constructor.
  - reflexivity.
Defined.

(** ** The class name chosen at the prompt *)

Lemma take_drop (n : nat) (s : string) : take n s +:+ drop n s = s.
Proof.
  revert s. induction n as [|n IH]; intros s; [reflexivity |].
  destruct s as [|c s]; [reflexivity |]. cbn [take drop String.append]. now rewrite IH.
Qed.

Lemma endsWith_append (x suf : string) : endsWith (x +:+ suf) suf = true.
Proof.
  unfold endsWith. rewrite length_append.
  replace (String.length suf <=? String.length x + String.length suf)%nat with true
    by (symmetry; apply Nat.leb_le; lia).
  replace (String.length x + String.length suf - String.length suf)%nat
    with (String.length x) by lia.
  rewrite drop_length_append. apply String.eqb_refl.
Qed.

Lemma endsWith_inv (s suf : string) :
  endsWith s suf = true -> exists x, s = x +:+ suf.
Proof.
  unfold endsWith. destruct (String.length suf <=? String.length s)%nat; [| discriminate].
  intros H. apply String.eqb_eq in H.
  exists (take (String.length s - String.length suf) s).
  rewrite <- (take_drop (String.length s - String.length suf) s) at 1.
  now rewrite H.
Qed.

Lemma slice_strip (x suf : string) :
  suf <> EmptyString ->
  slice (x +:+ suf) 0 (- Z.of_nat (String.length suf)) = x.
Proof.
  intros Hsuf. unfold slice, sliceIndex. rewrite length_append.
  assert (0 < String.length suf)%nat by (destruct suf; [congruence | cbn; lia]).
  replace (0 <? 0)%Z with false by reflexivity.
  replace (- Z.of_nat (String.length suf) <? 0)%Z with true
    by (symmetry; apply Z.ltb_lt; lia).
  rewrite Z.min_l by lia. rewrite Z.max_l by lia.
  cbn [Z.to_nat drop].
  replace (Z.to_nat _) with (String.length x) by lia.
  apply take_length_append.
Qed.

Lemma trimSuffix_main (text suf : string) :
  MainJs.trimSuffix text suf = trimSuffix text suf.
Proof.
  unfold MainJs.trimSuffix, trimSuffix. destruct text as [|c text]; [| reflexivity].
  cbn [truthy]. destruct suf; reflexivity.
Qed.

Lemma trimSuffix_strip (x suf : string) :
  suf <> EmptyString -> trimSuffix (x +:+ suf) suf = x.
Proof.
  intros Hsuf. rewrite <- trimSuffix_main. unfold MainJs.trimSuffix.
  now rewrite endsWith_append, slice_strip.
Qed.

Lemma trimSuffix_keep (text suf : string) :
  endsWith text suf = false -> trimSuffix text suf = text.
Proof.
  intros H. rewrite <- trimSuffix_main. unfold MainJs.trimSuffix. now rewrite H.
Qed.

Lemma truthy_ucFirst (text : string) : truthy (ucFirst text) = truthy text.
Proof. now destruct text. Qed.

Lemma answer_main (promptAnswer candidate : string) :
  MainJs.answer promptAnswer candidate = answer promptAnswer candidate.
Proof. unfold MainJs.answer, answer. apply trimSuffix_main. Qed.

(** C4, as the script has it: the class name is the chosen name (the
    trimmed answer with its first character in upper case; the candidate
    when the answer is blank) without one trailing [Element], if it ends
    with it, and is the chosen name otherwise.  Both revisions agree. *)
Theorem C4_class_name_from_answer (promptAnswer candidate : string) :
  (forall x, chosenName promptAnswer candidate = x +:+ "Element" ->
             answer promptAnswer candidate = x) /\
  (endsWith (chosenName promptAnswer candidate) "Element" = false ->
   answer promptAnswer candidate = chosenName promptAnswer candidate) /\
  (endsWith (chosenName promptAnswer candidate) "Element" = true ->
   exists x, chosenName promptAnswer candidate = x +:+ "Element") /\
  MainJs.answer promptAnswer candidate = answer promptAnswer candidate.
Proof.
  assert (E : answer promptAnswer candidate =
              trimSuffix (chosenName promptAnswer candidate) "Element").
  { unfold answer, chosenName, orElse. now rewrite truthy_ucFirst. }
  split; [| split; [| split]].
  - intros x Hx. rewrite E, Hx. now apply trimSuffix_strip.
  - intros H. rewrite E. now apply trimSuffix_keep.
  - apply endsWith_inv.
  - apply answer_main.
Qed.

Lemma C4_class_name_from_answer_witness :
  answer " fooBarElement " "Widget" = "FooBar" /\
  answer "  " "CustomElement" = "Custom" /\
  answer "widget" "Other" = "Widget".
Proof.
  split; [| split].
  - apply (proj1 (C4_class_name_from_answer " fooBarElement " "Widget")). reflexivity.
  - apply (proj1 (C4_class_name_from_answer "  " "CustomElement")). reflexivity.
  - apply (proj1 (proj2 (C4_class_name_from_answer "widget" "Other"))). reflexivity.
Defined.

(** C4 as stated fails twice: a non-blank answer also gets its first
    character upper-cased, and the candidate used for a blank answer also
    loses a trailing [Element]. *)
Lemma C4_counterexample :
  (trim "fooBar" <> EmptyString /\
   answer "fooBar" "Widget" <> trimSuffix (trim "fooBar") "Element") /\
  (trim " " = EmptyString /\
   answer " " "CustomElement" <> "CustomElement").
Proof. repeat split; discriminate. Qed.

(** ** File operations *)

Section FileProperties.

Variable cwd : string.

Lemma trace3 (tr : list FsOp) (a b c : FsOp) :
  ((tr ++ [a]) ++ [b]) ++ [c] = tr ++ [a; b; c].
Proof. now rewrite <- !app_assoc. Qed.

Lemma replaceFileContents_present (p : string) (m : JsMap) (w : World) (data : string) :
  files w !! resolve cwd p = Some data ->
  replaceFileContents cwd p m w =
  (Normal tt,
   {| files := <[resolve cwd p := substituted data m]> (files w);
      trace := trace w ++ [ OpReadFile (resolve cwd p);
                            OpTruncate (resolve cwd p);
                            OpWriteFile (resolve cwd p) (substituted data m) ] |}).
Proof.
  intros H.
  unfold replaceFileContents, iobind, existsSync, readFile, truncate, writeFile,
    liftC, logged.
  rewrite H. cbn [negb bool_decide files trace].
  rewrite bool_decide_eq_true_2 by eauto. cbn [negb].
  rewrite H, replaceStringByMapParts_total. cbn [files trace].
  rewrite H. cbn [files trace].
  now rewrite insert_insert_eq, trace3.
Qed.

Lemma replaceFileContents_absent (p : string) (m : JsMap) (w : World) :
  files w !! resolve cwd p = None ->
  replaceFileContents cwd p m w = (Normal tt, w).
Proof.
  intros H. unfold replaceFileContents, iobind, existsSync. rewrite H.
  rewrite bool_decide_eq_false_2 by (intros [? ?]; discriminate). reflexivity.
Qed.

Lemma replaceFileName_present (p target : string) (w : World) (data : string) :
  files w !! resolve cwd p = Some data ->
  replaceFileName cwd p target w =
  (Normal tt,
   {| files := <[resolve cwd target := data]> (delete (resolve cwd p) (files w));
      trace := trace w ++ [OpRename (resolve cwd p) (resolve cwd target)] |}).
Proof.
  intros H. unfold replaceFileName, iobind, existsSync, rename, logged. rewrite H.
  rewrite bool_decide_eq_true_2 by eauto. cbn [negb]. now rewrite H.
Qed.

Lemma replaceFileName_absent (p target : string) (w : World) :
  files w !! resolve cwd p = None ->
  replaceFileName cwd p target w = (Normal tt, w).
Proof.
  intros H. unfold replaceFileName, iobind, existsSync. rewrite H.
  rewrite bool_decide_eq_false_2 by (intros [? ?]; discriminate). reflexivity.
Qed.

Lemma replaceFileContents_main (p : string) (m : JsMap) (w : World) :
  MainJs.replaceFileContents cwd p m w = replaceFileContents cwd p m w.
Proof.
  unfold MainJs.replaceFileContents, replaceFileContents, iobind.
  destruct (existsSync cwd p w) as [[[] |] w1]; try reflexivity.
  cbn [negb]. destruct (readFile cwd p w1) as [[data |] w2]; try reflexivity.
  now rewrite replaceStringByMapParts_main.
Qed.

Lemma replaceFileName_main (p target : string) (w : World) :
  MainJs.replaceFileName cwd p target w = replaceFileName cwd p target w.
Proof. reflexivity. Qed.

Lemma calculateTargetFileFullPath_total (p : string) (m : JsMap) :
  calculateTargetFileFullPath p m =
  Normal (path_dirname p +:+ path_sep +:+
          substituted
            (slice (path_basename p) 0
               (- Z.of_nat (String.length (path_extname (path_basename p))))) m +:+
          path_extname (path_basename p)).
Proof.
  unfold calculateTargetFileFullPath. now rewrite replaceStringByMapParts_total.
Qed.

Lemma calculateTargetFileFullPath_main (rel : string) (m : JsMap) :
  MainJs.calculateTargetFileFullPath cwd rel m =
  calculateTargetFileFullPath (getFileFullPath cwd rel) m.
Proof.
  unfold MainJs.calculateTargetFileFullPath, calculateTargetFileFullPath, getFileFullPath.
  now rewrite replaceStringByMapParts_main.
Qed.




(** In the previous revision the loop body renames first and rewrites
    the contents at the target path afterwards. *)
Lemma MainJs_rename_before_contents
    (replacementMap : JsMap) (key : string) (value : list substitutionEnum)
    (w : World) (data : string) :
  includes value filename = true ->
  includes value contents = true ->
  files w !! resolve cwd key = Some data ->
  exists target,
    MainJs.calculateTargetFileFullPath cwd key replacementMap = Normal target /\
    MainJs.updateEntry cwd replacementMap key value w =
    (Normal tt,
     {| files := <[resolve cwd target := substituted data replacementMap]>
                   (delete (resolve cwd key) (files w));
        trace := trace w ++ [ OpRename (resolve cwd key) (resolve cwd target);
                              OpReadFile (resolve cwd target);
                              OpTruncate (resolve cwd target);
                              OpWriteFile (resolve cwd target)
                                (substituted data replacementMap) ] |}).
Proof.
  intros Hf Hc Hdata. eexists. split.
  - rewrite calculateTargetFileFullPath_main. apply calculateTargetFileFullPath_total.
  - unfold MainJs.updateEntry. rewrite Hf, Hc.
    unfold iobind at 1, liftC.
    rewrite calculateTargetFileFullPath_main, calculateTargetFileFullPath_total.
    unfold iobind at 1.
    rewrite replaceFileName_main, (replaceFileName_present _ _ _ _ Hdata).
    rewrite replaceFileContents_main.
    erewrite replaceFileContents_present by (cbn [files]; apply lookup_insert_eq).
    cbn [files trace]. now rewrite insert_insert_eq, <- app_assoc.
Qed.

End FileProperties.



(** In the previous revision a missing manifest file does not stop the
    contents rewrite, which is aimed at the target path: a file that is
    already there is rewritten. *)
Example MainJs_missing_file_target_rewritten :
  let w := {| files := {[ "/w/src/foo.ts" := "<custom-element>" ]}; trace := [] |} in
  let r := MainJs.updateEntry "/w" [("custom-element", "foo")]
             "src/custom-element.ts" [filename; contents] w in
  files w !! "/w/src/custom-element.ts" = None /\
  fst r = Normal tt /\
  files (snd r) !! "/w/src/foo.ts" = Some "<foo>".
Proof. vm_compute. repeat split. Qed.

(** The end-to-end scenario of the latest revision: the file of the
    manifest is rewritten and renamed. *)
Example setup_scenario :
  let w := {| files := {[ "/w/src/custom-element.ts" := "class CustomElementElement {}" ]};
              trace := [] |} in
  let r := setup "/w" "custom-element-boilerplate" "FooBar" w in
  fst r = Normal tt /\
  files (snd r) = {[ "/w/src/foo-bar-element.ts" := "class FooBarElement {}" ]}.
Proof. vm_compute. repeat split. Qed.

(** ** The target path of a file without extension *)

Lemma resolveTemplates_total (pkm templates map : JsMap) :
  resolveTemplates pkm templates map = Normal (resolved pkm templates map).
Proof.
  revert map. induction templates as [|[k v] ts IH]; intros map; [reflexivity |].
  cbn [resolveTemplates resolved]. rewrite !replaceStringByMapParts_total.
  cbn [cbind]. apply IH.
Qed.

Lemma resolveTemplates_main (pkm templates map : JsMap) :
  MainJs.resolveTemplates pkm templates map = Normal (resolved pkm templates map).
Proof.
  revert map. induction templates as [|[k v] ts IH]; intros map; [reflexivity |].
  cbn [MainJs.resolveTemplates resolved].
  rewrite !replaceStringByMapParts_main, !replaceStringByMapParts_total.
  cbn [cbind]. apply IH.
Qed.

Lemma Map_set_nonEmptyKeys (m : JsMap) (k v : string) :
  nonEmptyKeys m -> k <> EmptyString -> nonEmptyKeys (Map_set m k v).
Proof.
  unfold nonEmptyKeys. intros Hm Hk. induction Hm as [|[k' v'] m Hk' Hm IH].
  - now repeat constructor.
  - cbn [Map_set]. destruct (String.eqb k' k); constructor; auto.
Qed.

Lemma resolved_nonEmptyKeys (pkm templates map : JsMap) :
  Forall (fun kv => substituted (fst kv) pkm <> EmptyString) templates ->
  nonEmptyKeys map ->
  nonEmptyKeys (resolved pkm templates map).
Proof.
  intros H. revert map. induction H as [|[k v] ts Hk _ IH]; intros map Hmap.
  - exact Hmap.
  - cbn [resolved]. apply IH. now apply Map_set_nonEmptyKeys.
Qed.

Lemma substituted_empty (m : JsMap) :
  nonEmptyKeys m -> substituted EmptyString m = EmptyString.
Proof.
  induction 1 as [|[k v] m Hk _ IH]; [reflexivity |].
  cbn [substituted]. destruct k as [|c k]; [now contradiction Hk |]. exact IH.
Qed.

Lemma keysCheck_sound (pkm templates : JsMap) :
  keysCheck pkm templates = true ->
  Forall (fun kv => substituted (fst kv) pkm <> EmptyString) templates.
Proof.
  unfold keysCheck. induction templates as [|kv ts IH]; intros H; constructor.
  - cbn [forallb] in H. apply andb_true_iff in H as [H _].
    destruct (substituted (fst kv) pkm); [discriminate | discriminate].
  - cbn [forallb] in H. apply andb_true_iff in H as [_ H]. now apply IH.
Qed.

Lemma Normal_inj {A : Type} (a b : A) : Normal a = Normal b -> a = b.
Proof. now intros [= ->]. Qed.

Lemma of_filename_mk {A : Type} (a b : A) :
  of_filename {| of_filename := a; of_contents := b |} = a.
Proof. reflexivity. Qed.

Lemma calculateReplacementMap_total (fromKeys toKeys : CustomElementKey) :
  calculateReplacementMap fromKeys toKeys =
  Normal {| of_filename :=
              resolved (prefixedKeys fromKeys toKeys)
                (of_filename replacementTemplateMap) [];
            of_contents :=
              resolved (prefixedKeys fromKeys toKeys)
                (of_contents replacementTemplateMap) [] |}.
Proof.
  unfold calculateReplacementMap.
  generalize (prefixedKeys fromKeys toKeys) (of_filename replacementTemplateMap)
    (of_contents replacementTemplateMap).
  intros pkm tf tc. now rewrite !resolveTemplates_total.
Qed.

Lemma calculateReplacementMap_main_total (fromKeys toKeys : MainJs.CustomElementKey) :
  MainJs.calculateReplacementMap fromKeys toKeys =
  Normal (resolved (MainJs.prefixedKeys fromKeys toKeys) MainJs.replacementTemplateMap []).
Proof. unfold MainJs.calculateReplacementMap. apply resolveTemplates_main. Qed.

(** The keys of the maps the script builds are the fixed source texts,
    whatever the target keys are. *)
Lemma filename_keys_nonEmpty (toKeys : CustomElementKey) (rm : ByType JsMap) :
  calculateReplacementMap fromCustomElementKey toKeys = Normal rm ->
  nonEmptyKeys (of_filename rm).
Proof.
  intros H. rewrite calculateReplacementMap_total in H.
  apply Normal_inj in H. rewrite <- H, of_filename_mk.
  apply resolved_nonEmptyKeys; [| constructor].
  apply keysCheck_sound. destruct toKeys as [f fs t tn cn sf].
  vm_compute. reflexivity.
Qed.

Lemma main_keys_nonEmpty (toKeys : MainJs.CustomElementKey) (rm : JsMap) :
  MainJs.calculateReplacementMap MainJs.fromCustomElementKey toKeys = Normal rm ->
  nonEmptyKeys rm.
Proof.
  intros H. rewrite calculateReplacementMap_main_total in H.
  apply Normal_inj in H. rewrite <- H.
  apply resolved_nonEmptyKeys; [| constructor].
  apply keysCheck_sound. destruct toKeys as [f t tn cn sf].
  vm_compute. reflexivity.
Qed.

Lemma slice_no_extension (basename : string) :
  slice basename 0 (- Z.of_nat (String.length EmptyString)) = EmptyString.
Proof.
  unfold slice, sliceIndex. cbn [String.length Z.of_nat Z.opp].
  replace (0 <? 0)%Z with false by reflexivity.
  rewrite Z.min_l by lia. now destruct basename.
Qed.

(** C9: for a path whose base name has no extension, the file name that
    [calculateTargetFileFullPath] cuts out with [slice(0, -0)] is empty;
    substitution with non-empty patterns keeps it empty, so the target
    path is the directory followed by the separator.  The maps the script
    builds have non-empty patterns for every class name, in both
    revisions. *)
Theorem C9_no_extension_empty_file_name (cwd fullPath : string) :
  path_extname (path_basename fullPath) = EmptyString ->
  slice (path_basename fullPath) 0
    (- Z.of_nat (String.length (path_extname (path_basename fullPath)))) = EmptyString /\
  (forall m, nonEmptyKeys m ->
     calculateTargetFileFullPath fullPath m =
       Normal (path_dirname fullPath +:+ path_sep)) /\
  (forall m rel, nonEmptyKeys m ->
     path_normalize (cwd +:+ path_sep +:+ rel) = fullPath ->
     MainJs.calculateTargetFileFullPath cwd rel m =
       Normal (path_dirname fullPath +:+ path_sep)) /\
  (forall targetClassName rm,
     calculateReplacementMap fromCustomElementKey
       (calculateTargetCustomElementKeysByClassName targetClassName) = Normal rm ->
     calculateTargetFileFullPath fullPath (of_filename rm) =
       Normal (path_dirname fullPath +:+ path_sep)) /\
  (forall targetClassName rm rel,
     MainJs.calculateReplacementMap MainJs.fromCustomElementKey
       (MainJs.calculateTargetCustomElementKeysByClassName targetClassName) = Normal rm ->
     path_normalize (cwd +:+ path_sep +:+ rel) = fullPath ->
     MainJs.calculateTargetFileFullPath cwd rel rm =
       Normal (path_dirname fullPath +:+ path_sep)).
Proof.
  intros Hext.
  assert (Hslice : slice (path_basename fullPath) 0
            (- Z.of_nat (String.length (path_extname (path_basename fullPath))))
            = EmptyString)
    by (rewrite Hext; apply slice_no_extension).
  assert (Hgen : forall m, nonEmptyKeys m ->
            calculateTargetFileFullPath fullPath m =
              Normal (path_dirname fullPath +:+ path_sep)).
  { intros m Hm. rewrite calculateTargetFileFullPath_total, Hslice, Hext.
    now rewrite substituted_empty. }
  assert (Hmain : forall m rel, nonEmptyKeys m ->
            path_normalize (cwd +:+ path_sep +:+ rel) = fullPath ->
            MainJs.calculateTargetFileFullPath cwd rel m =
              Normal (path_dirname fullPath +:+ path_sep)).
  { intros m rel Hm Hrel. rewrite calculateTargetFileFullPath_main.
    unfold getFileFullPath. rewrite Hrel. now apply Hgen. }
  split; [exact Hslice |]. split; [exact Hgen |]. split; [exact Hmain |]. split.
  - intros targetClassName rm Hrm. apply Hgen. eapply filename_keys_nonEmpty, Hrm.
  - intros targetClassName rm rel Hrm Hrel. apply Hmain; [| exact Hrel].
    eapply main_keys_nonEmpty, Hrm.
Qed.

Lemma C9_no_extension_empty_file_name_witness :
  calculateTargetFileFullPath "/w/LICENSE" [("custom-element", "foo-bar-element")] =
    Normal "/w/" /\
  MainJs.calculateTargetFileFullPath "/w" "LICENSE" [("custom-element", "foo-bar")] =
    Normal "/w/".
Proof.
  destruct (C9_no_extension_empty_file_name "/w" "/w/LICENSE" eq_refl)
    as (_ & Hgen & Hmain & _).
  split.
  - apply Hgen. repeat constructor; discriminate.
  - apply Hmain; [repeat constructor; discriminate | reflexivity].
Defined.

(** * Further properties *)

(** ** Further properties of the text functions *)

Lemma unescape_plain (c : ascii) (rest : string) :
  inString c MainJsChars.escapedChars = false ->
  unescape (String c rest) = String c (unescape rest).
Proof. destruct rest; each_char c; intros H; try reflexivity; discriminate H. Qed.

Lemma unescape_escaped (cls : string) (t : string) :
  (forall c, inString c MainJsChars.escapedChars = true -> inString c cls = true) ->
  unescape (expandChars
              (fun c => if inString c cls then String "\" (single c) else single c) t)
  = t.
Proof.
  intros Hlo. induction t as [|c t IH]; [reflexivity |].
  cbn [expandChars]. destruct (inString c cls) eqn:E.
  - cbn [String.append single unescape]. now rewrite IH.
  - cbn [String.append single]. rewrite unescape_plain.
    + now rewrite IH.
    + destruct (inString c MainJsChars.escapedChars) eqn:E'; [| reflexivity].
      apply Hlo in E'. congruence.
Qed.

(** X1: [escapeRegex] loses nothing: dropping the backslashes it added
    gives the text back, in both revisions. *)
Theorem X1_escapeRegex_round_trip (text : string) :
  unescape (escapeRegex text) = text /\
  unescape (MainJs.escapeRegex text) = text.
Proof.
  split.
  - rewrite escapeRegex_chars. apply (unescape_escaped escapedChars).
    apply main_escaped_is_escaped.
  - rewrite escapeRegex_chars_main. apply (unescape_escaped MainJsChars.escapedChars).
    auto.
Qed.

Lemma substituted_absent (t : string) (m : JsMap) :
  Forall (fun kv => occursIn (fst kv) t = false) m -> substituted t m = t.
Proof.
  induction 1 as [|[k v] m Hk _ IH]; [reflexivity |].
  cbn [substituted]. unfold replaceAll. cbn [fst] in Hk.
  now rewrite replaceFrom_absent.
Qed.

(** X2: when none of the patterns occurs in the text, the substitution
    returns the text unchanged, whatever the replacements are. *)
Theorem X2_absent_patterns_keep_text (t : string) (m : JsMap) :
  Forall (fun kv => occursIn (fst kv) t = false) m ->
  replaceStringByMapParts t m = Normal t /\
  MainJs.replaceStringByMapParts t m = Normal t.
Proof.
  intros H. rewrite replaceStringByMapParts_main, replaceStringByMapParts_total.
  now rewrite substituted_absent.
Qed.

Lemma X2_absent_patterns_keep_text_witness :
  replaceStringByMapParts "index" [("custom-element", "$&x"); ("CUSTOM-ELEMENT", "y")]
    = Normal "index".
Proof.
  apply (X2_absent_patterns_keep_text "index"
           [("custom-element", "$&x"); ("CUSTOM-ELEMENT", "y")]).
  repeat constructor.
Defined.

Lemma replaceFrom_empty_pattern (v s before : string) :
  dollarFree v = true ->
  replaceFrom (literal EmptyString) (ReplTemplate v) before 0 s =
  v +:+ expandChars (fun c => String c v) s.
Proof.
  intros Hv. revert before. induction s as [|c s IH]; intros before.
  - cbn [replaceFrom literal list_ascii_of_string map matchAt replacement
         String.length expandChars].
    now rewrite GetSubstitution_dollarFree.
  - cbn [replaceFrom literal list_ascii_of_string map matchAt replacement
         String.length expandChars].
    rewrite GetSubstitution_dollarFree by assumption.
    rewrite IH. reflexivity.
Qed.

(** X3: an empty pattern matches before every character and at the end:
    the replacement is inserted at each of these places. *)
Theorem X3_empty_pattern_inserts_everywhere (t v : string) :
  dollarFree v = true ->
  replaceStringByMapParts t [(EmptyString, v)] =
    Normal (v +:+ expandChars (fun c => String c v) t) /\
  MainJs.replaceStringByMapParts t [(EmptyString, v)] =
    Normal (v +:+ expandChars (fun c => String c v) t).
Proof.
  intros Hv. rewrite replaceStringByMapParts_main, replaceStringByMapParts_total.
  cbn [substituted]. unfold replaceAll. now rewrite replaceFrom_empty_pattern.
Qed.

Lemma X3_empty_pattern_inserts_everywhere_witness :
  replaceStringByMapParts "abc" [(EmptyString, "-")] = Normal "-a-b-c-".
Proof. apply (X3_empty_pattern_inserts_everywhere "abc" "-"). reflexivity. Defined.

(** ** Further properties of the naming functions *)


Lemma upper_upper (c : ascii) : charToUpperCase (charToUpperCase c) = charToUpperCase c.
Proof. each_char c; reflexivity. Qed.






Lemma capitalizeSegments_noHyphen (b : bool) (s : string) :
  inString "-" (capitalizeSegments b s) = false.
Proof.
  revert b. induction s as [|c s IH]; intros b; [reflexivity |].
  cbn [capitalizeSegments]. destruct (Ascii.eqb c "-") eqn:E; [apply IH |].
  cbn [inString]. rewrite IH, orb_false_r.
  destruct b; [now rewrite upper_eq_hyphen | exact E].
Qed.

Lemma capitalizeSegments_hyphenFree (b : bool) (t : string) :
  inString "-" t = false ->
  capitalizeSegments b t = if b then capitalize t else t.
Proof.
  revert b. induction t as [|c t IH]; intros b H; [now destruct b |].
  cbn [inString] in H. apply orb_false_iff in H as [Hc Ht].
  cbn [capitalizeSegments]. rewrite Hc, (IH false Ht). now destruct b.
Qed.

Lemma capitalize_capitalizeSegments (s : string) :
  capitalize (capitalizeSegments true s) = capitalizeSegments true s.
Proof.
  induction s as [|c s IH]; [reflexivity |].
  cbn [capitalizeSegments]. destruct (Ascii.eqb c "-"); [exact IH |].
  cbn [capitalize]. now rewrite upper_upper.
Qed.

(** X7: for every repository name the candidate class name has no
    hyphen, and deriving a candidate from a candidate changes nothing. *)
Theorem X7_candidate_no_hyphen_idempotent (repositoryName : string) :
  noHyphen (calculateCustomElementNameFromRepositoryName repositoryName) = true /\
  calculateCustomElementNameFromRepositoryName
    (calculateCustomElementNameFromRepositoryName repositoryName) =
  calculateCustomElementNameFromRepositoryName repositoryName.
Proof.
  rewrite !candidate_rePascalCase, !rePascalCase_segments. split.
  - unfold noHyphen. now rewrite capitalizeSegments_noHyphen.
  - rewrite capitalizeSegments_hyphenFree by apply capitalizeSegments_noHyphen.
    apply capitalize_capitalizeSegments.
Qed.

(** ** Further properties of the prompt answer *)

Lemma endsWith_empty (text : string) : endsWith text EmptyString = true.
Proof. rewrite <- (append_nil_r text). apply endsWith_append. Qed.

(** X8: with an empty suffix [trimSuffix] returns the empty string:
    every text ends with the empty string and [slice(0, -0)] is
    [slice(0, 0)]. *)
Theorem X8_trimSuffix_empty_suffix (text : string) :
  trimSuffix text EmptyString = EmptyString /\
  MainJs.trimSuffix text EmptyString = EmptyString.
Proof.
  rewrite <- trimSuffix_main.
  assert (E : MainJs.trimSuffix text EmptyString = EmptyString).
  { unfold MainJs.trimSuffix. rewrite endsWith_empty. apply slice_no_extension. }
  now split.
Qed.

Lemma append_eq_empty (a b : string) : a +:+ b = EmptyString -> a = EmptyString.
Proof. destruct a; [reflexivity | discriminate]. Qed.

Lemma answer_chosenName (promptAnswer candidate : string) :
  answer promptAnswer candidate =
  trimSuffix (chosenName promptAnswer candidate) "Element".
Proof. unfold answer, chosenName, orElse. now rewrite truthy_ucFirst. Qed.

(** X9: the class name is empty exactly when the chosen name (the
    capitalized answer, or the candidate for a blank answer) is empty or
    is the suffix [Element] itself. *)
Theorem X9_empty_class_name (promptAnswer candidate : string) :
  answer promptAnswer candidate = EmptyString <->
  chosenName promptAnswer candidate = EmptyString \/
  chosenName promptAnswer candidate = "Element".
Proof.
  rewrite answer_chosenName. generalize (chosenName promptAnswer candidate).
  intros chosen. split.
  - intros E. destruct (endsWith chosen "Element") eqn:W.
    + apply endsWith_inv in W as [x Hx]. right. subst chosen.
      rewrite trimSuffix_strip in E by discriminate. now subst x.
    + left. now rewrite trimSuffix_keep in E.
  - intros [-> | ->]; reflexivity.
Qed.

Lemma trimStart_head (s : string) :
  match trimStart s with
  | EmptyString => True
  | String c _ => isWhiteSpace c = false
  end.
Proof.
  induction s as [|c s IH]; [exact I |].
  cbn [trimStart]. destruct (isWhiteSpace c) eqn:W; [exact IH | exact W].
Qed.

Lemma trimEnd_head (c : ascii) (s : string) :
  isWhiteSpace c = false -> exists t, trimEnd (String c s) = String c t.
Proof.
  intros W. cbn [trimEnd]. destruct (trimEnd s) as [|d t].
  - rewrite W. now eexists.
  - now eexists.
Qed.

Lemma trimEnd_idempotent (s : string) : trimEnd (trimEnd s) = trimEnd s.
Proof.
  induction s as [|c s IH]; [reflexivity |].
  cbn [trimEnd]. destruct (trimEnd s) as [|d t] eqn:E.
  - destruct (isWhiteSpace c) eqn:W; [reflexivity |].
    cbn [trimEnd]. now rewrite W.
  - change (trimEnd (String c (String d t)))
      with (match trimEnd (String d t) with
            | EmptyString => if isWhiteSpace c then EmptyString else String c EmptyString
            | u => String c u
            end).
    now rewrite IH.
Qed.

Lemma trim_idempotent (s : string) : trim (trim s) = trim s.
Proof.
  unfold trim. pose proof (trimStart_head s) as H.
  destruct (trimStart s) as [|c t]; [reflexivity |].
  destruct (trimEnd_head c t H) as [u E]. rewrite E.
  cbn [trimStart]. rewrite H, <- E. apply trimEnd_idempotent.
Qed.

(** X10: white space around the answer never matters: the trimmed answer
    gives the same class name, and an answer of white space only gives
    what the empty answer gives. *)
Theorem X10_answer_ignores_surrounding_space (promptAnswer candidate : string) :
  answer (trim promptAnswer) candidate = answer promptAnswer candidate /\
  MainJs.answer (trim promptAnswer) candidate = MainJs.answer promptAnswer candidate /\
  (trim promptAnswer = EmptyString ->
   answer promptAnswer candidate = answer EmptyString candidate).
Proof.
  split; [| split].
  - unfold answer. now rewrite trim_idempotent.
  - unfold MainJs.answer. now rewrite trim_idempotent.
  - intros E. unfold answer. now rewrite E.
Qed.

Lemma X10_answer_ignores_surrounding_space_witness :
  answer "   " "MyWidget" = answer EmptyString "MyWidget".
Proof.
  apply (proj2 (proj2 (X10_answer_ignores_surrounding_space "   " "MyWidget"))).
  reflexivity.
Defined.

(** ** The repository name *)

Lemma slice_cut (x y : string) (n : nat) :
  String.length y = n -> (0 < n)%nat ->
  slice (x +:+ y) 0 (- Z.of_nat n) = x.
Proof.
  intros <- Hn. apply slice_strip. destruct y; [cbn in Hn; lia | discriminate].
Qed.

Lemma slice_short (b : string) (n : nat) :
  (String.length b <= n)%nat -> slice b 0 (- Z.of_nat n) = EmptyString.
Proof.
  intros H. unfold slice, sliceIndex.
  replace (0 <? 0)%Z with false by reflexivity.
  rewrite Z.min_l by lia.
  destruct (- Z.of_nat n <? 0)%Z eqn:E.
  - rewrite Z.max_r by lia. now destruct b.
  - apply Z.ltb_ge in E. assert (n = 0)%nat by lia. subst n. now destruct b.
Qed.

(** X11: the repository name taken from the origin URL is its base name
    without a trailing [.git]; a base name without that suffix is used
    as it is; an empty base name, or [.git] alone, falls back to the
    base name of the top-level directory.  The previous revision cuts
    the last four characters off whatever they are, and falls back when
    at most four characters are there. *)
Theorem X11_repository_name (gitOriginRemote gitPath : string) :
  let base := path_basename (trim gitOriginRemote) in
  (forall x, base = x +:+ ".git" -> x <> EmptyString ->
     tryFetchGitRepositoryName gitOriginRemote gitPath = x) /\
  (endsWith base ".git" = false -> base <> EmptyString ->
     tryFetchGitRepositoryName gitOriginRemote gitPath = base) /\
  (base = EmptyString \/ base = ".git" ->
     tryFetchGitRepositoryName gitOriginRemote gitPath = path_basename gitPath) /\
  (forall x y, base = x +:+ y -> String.length y = 4 -> x <> EmptyString ->
     MainJs.tryFetchGitRepositoryName gitOriginRemote gitPath = x) /\
  ((String.length base <= 4)%nat ->
     MainJs.tryFetchGitRepositoryName gitOriginRemote gitPath = path_basename gitPath).
Proof.
  intros base. unfold tryFetchGitRepositoryName, MainJs.tryFetchGitRepositoryName.
  fold base. generalize base. clear base. intros base.
  split; [| split; [| split; [| split]]].
  - intros x -> Hx. rewrite endsWith_append, slice_strip by discriminate.
    destruct x; [congruence | reflexivity].
  - intros -> Hb. destruct base; [congruence | reflexivity].
  - intros [-> | ->]; reflexivity.
  - intros x y -> Hy Hx. change (String.length ".git") with 4%nat.
    rewrite (slice_cut x y 4 Hy) by lia.
    destruct x; [congruence | reflexivity].
  - intros H. change (String.length ".git") with 4%nat. now rewrite slice_short.
Qed.

Lemma X11_repository_name_witness :
  tryFetchGitRepositoryName " git@github.com:krhkt/my-widget.git " "/home/u/dir" =
    "my-widget" /\
  tryFetchGitRepositoryName "https://github.com/krhkt/my-widget" "/home/u/dir" =
    "my-widget" /\
  tryFetchGitRepositoryName EmptyString "/home/u/dir" = "dir" /\
  MainJs.tryFetchGitRepositoryName "https://github.com/krhkt/my-widget" "/home/u/dir" =
    "my-wi" /\
  MainJs.tryFetchGitRepositoryName "https://github.com/krhkt/abc" "/home/u/dir" = "dir".
Proof.
  split; [| split; [| split; [| split]]].
  - apply (proj1 (X11_repository_name " git@github.com:krhkt/my-widget.git "
                    "/home/u/dir")); [reflexivity | discriminate].
  - apply (proj1 (proj2 (X11_repository_name "https://github.com/krhkt/my-widget"
                           "/home/u/dir"))); [reflexivity | discriminate].
  - apply (proj1 (proj2 (proj2 (X11_repository_name EmptyString "/home/u/dir")))).
    now left.
  - apply (proj1 (proj2 (proj2 (proj2
             (X11_repository_name "https://github.com/krhkt/my-widget" "/home/u/dir")))))
      with (y := "dget"); [reflexivity | reflexivity | discriminate].
  - apply (proj2 (proj2 (proj2 (proj2
             (X11_repository_name "https://github.com/krhkt/abc" "/home/u/dir"))))).
    vm_compute. lia.
Defined.

(** ** The file name and its extension *)

Lemma revOnto_append (s acc : string) : revOnto s acc = reverse s +:+ acc.
Proof.
  unfold reverse. revert acc. induction s as [|c s IH]; intros acc; [reflexivity |].
  cbn [revOnto]. rewrite IH, (IH (String c EmptyString)).
  now rewrite append_assoc.
Qed.

Lemma reverse_cons (c : ascii) (s : string) :
  reverse (String c s) = reverse s +:+ String c EmptyString.
Proof. unfold reverse at 1. cbn [revOnto]. apply revOnto_append. Qed.

Lemma reverse_append (a b : string) : reverse (a +:+ b) = reverse b +:+ reverse a.
Proof.
  induction a as [|c a IH]; cbn [String.append].
  - now rewrite append_nil_r.
  - now rewrite !reverse_cons, IH, append_assoc.
Qed.

Lemma reverse_involutive (s : string) : reverse (reverse s) = s.
Proof.
  induction s as [|c s IH]; [reflexivity |].
  now rewrite reverse_cons, reverse_append, IH.
Qed.

Lemma takeWhile_dropWhile (p : ascii -> bool) (s : string) :
  takeWhile p s +:+ dropWhile p s = s.
Proof.
  induction s as [|c s IH]; [reflexivity |].
  cbn [takeWhile dropWhile]. destruct (p c); [| reflexivity].
  cbn [String.append]. now rewrite IH.
Qed.

Lemma takeWhile_all (p : ascii -> bool) (s : string) :
  allChars p (takeWhile p s) = true.
Proof.
  induction s as [|c s IH]; [reflexivity |].
  cbn [takeWhile]. destruct (p c) eqn:E; [| reflexivity].
  cbn [allChars]. now rewrite E.
Qed.

Lemma takeWhile_id (p : ascii -> bool) (s : string) :
  allChars p s = true -> takeWhile p s = s.
Proof.
  induction s as [|c s IH]; intros H; [reflexivity |].
  cbn [allChars] in H. apply andb_true_iff in H as [Hc Hs].
  cbn [takeWhile]. now rewrite Hc, IH.
Qed.

Lemma dropWhile_none (p q : ascii -> bool) (s : string) :
  (forall c, q c = true -> p c = false) ->
  allChars q s = true -> dropWhile p s = s.
Proof.
  intros Hpq H. destruct s as [|c s]; [reflexivity |].
  cbn [allChars] in H. apply andb_true_iff in H as [Hc _].
  cbn [dropWhile]. now rewrite (Hpq c Hc).
Qed.

Lemma dropWhile_head (p : ascii -> bool) (s : string) :
  match dropWhile p s with
  | EmptyString => True
  | String c _ => p c = false
  end.
Proof.
  induction s as [|c s IH]; [exact I |].
  cbn [dropWhile]. destruct (p c) eqn:E; [exact IH | exact E].
Qed.

Lemma path_basename_idempotent (p : string) :
  path_basename (path_basename p) = path_basename p.
Proof.
  unfold path_basename at 1 3.
  set (T := takeWhile (fun c => negb (isSlash c)) (dropWhile isSlash (reverse p))).
  assert (HT : allChars (fun c => negb (isSlash c)) T = true) by apply takeWhile_all.
  unfold path_basename. fold T. rewrite reverse_involutive.
  rewrite (dropWhile_none isSlash (fun c => negb (isSlash c))); [| | exact HT].
  - now rewrite takeWhile_id.
  - intros c Hc. now apply negb_true_iff in Hc.
Qed.

Lemma isDot_eq (c : ascii) : isDot c = true -> c = "."%char.
Proof. unfold isDot. intros H. now apply Ascii.eqb_eq in H. Qed.

(** A base name with an extension is a name followed by the extension. *)
Lemma path_extname_suffix (p : string) :
  path_extname (path_basename p) <> EmptyString ->
  exists name, path_basename p = name +:+ path_extname (path_basename p).
Proof.
  unfold path_extname. rewrite path_basename_idempotent.
  set (base := path_basename p). set (r := reverse base).
  pose proof (takeWhile_dropWhile (fun c => negb (isDot c)) r) as Hsplit.
  pose proof (dropWhile_head (fun c => negb (isDot c)) r) as Hhead.
  destruct (dropWhile (fun c => negb (isDot c)) r) as [|d [|e rest]];
    [congruence | congruence |].
  destruct (String.eqb base ".."); [congruence |]. intros _.
  apply negb_false_iff, isDot_eq in Hhead. subst d.
  exists (reverse (String e rest)).
  rewrite <- (reverse_involutive base). fold r. rewrite <- Hsplit at 1.
  rewrite reverse_append.
  change (String "." (String e rest))
    with (String "." EmptyString +:+ String e rest).
  rewrite reverse_append. rewrite append_assoc. reflexivity.
Qed.

Lemma startsWith_append_l (a b k : string) :
  startsWith a k = true -> startsWith (a +:+ b) k = true.
Proof.
  intros H. apply startsWith_inv in H as [rest ->].
  rewrite append_assoc. apply startsWith_append.
Qed.

Lemma occursIn_append_l (k a b : string) :
  occursIn k (a +:+ b) = false -> occursIn k a = false.
Proof.
  induction a as [|c a IH]; intros H.
  - cbn [occursIn]. rewrite orb_false_r.
    cbn [String.append] in H. destruct b; cbn [occursIn] in H.
    + now rewrite orb_false_r in H.
    + apply orb_false_iff in H as [H _].
      destruct (startsWith EmptyString k) eqn:E; [| reflexivity].
      apply (startsWith_append_l EmptyString (String a b)) in E.
      cbn [String.append] in E. congruence.
  - cbn [String.append occursIn] in H. apply orb_false_iff in H as [H1 H2].
    cbn [occursIn]. rewrite (IH H2), orb_false_r.
    destruct (startsWith (String c a) k) eqn:E; [| reflexivity].
    apply (startsWith_append_l (String c a) b) in E.
    cbn [String.append] in E. congruence.
Qed.

(** X17: when the base name has an extension, only the part before the
    extension goes through the substitution and the extension is put
    back unchanged; if no pattern occurs in the base name, the target
    keeps the base name (both revisions). *)
Theorem X17_extension_is_kept (cwd fullPath : string) (replacementMap : JsMap) :
  path_extname (path_basename fullPath) <> EmptyString ->
  (exists name renamed,
     path_basename fullPath = name +:+ path_extname (path_basename fullPath) /\
     replaceStringByMapParts name replacementMap = Normal renamed /\
     calculateTargetFileFullPath fullPath replacementMap =
       Normal (path_dirname fullPath +:+ path_sep +:+ renamed +:+
               path_extname (path_basename fullPath))) /\
  (Forall (fun kv => occursIn (fst kv) (path_basename fullPath) = false) replacementMap ->
   calculateTargetFileFullPath fullPath replacementMap =
     Normal (path_dirname fullPath +:+ path_sep +:+ path_basename fullPath)) /\
  (forall rel, path_normalize (cwd +:+ path_sep +:+ rel) = fullPath ->
     MainJs.calculateTargetFileFullPath cwd rel replacementMap =
     calculateTargetFileFullPath fullPath replacementMap).
Proof.
  intros Hext. destruct (path_extname_suffix fullPath Hext) as [name Hname].
  assert (Hslice : slice (path_basename fullPath) 0
            (- Z.of_nat (String.length (path_extname (path_basename fullPath)))) = name).
  { rewrite Hname at 1. now apply slice_strip. }
  split; [| split].
  - exists name, (substituted name replacementMap).
    split; [exact Hname |]. split; [apply replaceStringByMapParts_total |].
    now rewrite calculateTargetFileFullPath_total, Hslice.
  - intros Habs. rewrite calculateTargetFileFullPath_total, Hslice.
    rewrite substituted_absent.
    + now rewrite <- Hname.
    + eapply List.Forall_impl; [| exact Habs]. intros kv Hkv. cbn beta in Hkv.
      rewrite Hname in Hkv. now apply occursIn_append_l in Hkv.
  - intros rel <-. apply calculateTargetFileFullPath_main.
Qed.

Lemma X17_extension_is_kept_witness :
  calculateTargetFileFullPath "/w/test/test.ts" [("custom-element", "foo"); ("x.t", "js")]
    = Normal "/w/test/test.ts".
Proof.
  apply (proj1 (proj2 (X17_extension_is_kept "/w" "/w/test/test.ts"
                         [("custom-element", "foo"); ("x.t", "js")] ltac:(discriminate)))).
  repeat constructor.
Defined.

(** ** The patterns of the substitution maps *)

(** X4: building the substitution maps never fails, and the patterns
    they search for are the fixed source texts whatever the target keys
    are: one pattern for file names and fourteen for contents in the
    latest revision; four in the previous one, where the templates for
    [file] and [tag] resolve to the same pattern and share one entry. *)
Theorem X4_patterns_are_fixed (toKeys : CustomElementKey)
    (toKeysMain : MainJs.CustomElementKey) :
  (exists rm,
     calculateReplacementMap fromCustomElementKey toKeys = Normal rm /\
     map fst (of_filename rm) = ["custom-element"] /\
     map fst (of_contents rm) =
       [ "<custom-element>"; "</custom-element>";
         DQ +:+ "custom-element" +:+ DQ; "'custom-element'";
         "custom-element demo"; "src/custom-element'"; "src/custom-element.ts";
         "CUSTOM-ELEMENT"; "CustomElementElement";
         DQ +:+ "repository" +:+ DQ +:+ ": " +:+ DQ +:+
           "github/custom-element-boilerplate" +:+ DQ;
         DQ +:+ "name" +:+ DQ +:+ ": " +:+ DQ +:+
           "@github/custom-element-element" +:+ DQ;
         DQ +:+ "main" +:+ DQ +:+ ": " +:+ DQ +:+ "dist/custom-element.js" +:+ DQ;
         DQ +:+ "module" +:+ DQ +:+ ": " +:+ DQ +:+ "dist/custom-element.js" +:+ DQ;
         DQ +:+ "types" +:+ DQ +:+ ": " +:+ DQ +:+ "dist/custom-elements.d.ts" +:+ DQ ]) /\
  (exists rm,
     MainJs.calculateReplacementMap MainJs.fromCustomElementKey toKeysMain = Normal rm /\
     map fst rm =
       [ "custom-elements"; "custom-element"; "CUSTOM-ELEMENT"; "CustomElementElement" ]).
Proof.
  split.
  - eexists. split; [apply calculateReplacementMap_total |].
    rewrite of_filename_mk. destruct toKeys as [f fs t tn cn sf].
    split; [vm_compute; reflexivity |].
    cbn [of_contents]. vm_compute. reflexivity.
  - eexists. split; [apply calculateReplacementMap_main_total |].
    destruct toKeysMain as [f t tn cn sf]. vm_compute. reflexivity.
Qed.

(** ** Further properties of the file operations *)

Section MoreFileProperties.

Variable cwd : string.




Lemma replaceFileContents_safe (p : string) (m : JsMap) (w : World) :
  exists w', replaceFileContents cwd p m w = (Normal tt, w') /\
             size (files w') = size (files w).
Proof.
  destruct (files w !! resolve cwd p) as [data|] eqn:E.
  - rewrite (replaceFileContents_present cwd p m w data E). eexists. split; [reflexivity |].
    cbn [files]. apply map_size_insert_Some. eauto.
  - rewrite (replaceFileContents_absent cwd p m w E). now eexists.
Qed.

Lemma replaceFileName_safe (p target : string) (w : World) :
  exists w', replaceFileName cwd p target w = (Normal tt, w') /\
             size (files w') <= size (files w).
Proof.
  destruct (files w !! resolve cwd p) as [data|] eqn:E.
  - rewrite (replaceFileName_present cwd p target w data E). eexists.
    split; [reflexivity |]. cbn [files].
    rewrite map_size_insert, map_size_delete, E.
    assert (0 < size (files w)).
    { destruct (decide (size (files w) = 0)) as [Z|]; [| lia].
      apply map_size_empty_inv in Z. rewrite Z in E. now rewrite lookup_empty in E. }
    destruct (delete (resolve cwd p) (files w) !! resolve cwd target); cbn; lia.
  - rewrite (replaceFileName_absent cwd p target w E). now eexists.
Qed.

Lemma updateEntry_safe (replacementMap : ByType JsMap) (fileRelativePath : string)
    (flags : list substitutionEnum) (w : World) :
  exists w', updateEntry cwd replacementMap fileRelativePath flags w = (Normal tt, w') /\
             size (files w') <= size (files w).
Proof.
  unfold updateEntry, iobind at 1.
  assert (H1 : exists w1,
             (if includes flags contents
              then replaceFileContents cwd (getFileFullPath cwd fileRelativePath)
                     (of_contents replacementMap)
              else ioret tt) w = (Normal tt, w1) /\
             size (files w1) = size (files w)).
  { destruct (includes flags contents); [apply replaceFileContents_safe | now eexists]. }
  destruct H1 as (w1 & -> & S1).
  destruct (includes flags filename); cbn [negb].
  - unfold iobind, liftC. rewrite calculateTargetFileFullPath_total.
    set (target := path_dirname _ +:+ _).
    destruct (replaceFileName_safe (getFileFullPath cwd fileRelativePath) target w1)
      as (w2 & -> & S2).
    exists w2. split; [reflexivity | lia].
  - exists w1. split; [reflexivity | lia].
Qed.

Lemma updateFiles_safe (replacementMap : ByType JsMap)
    (entries : list (string * list substitutionEnum)) (w : World) :
  exists w', updateFiles cwd replacementMap entries w = (Normal tt, w') /\
             size (files w') <= size (files w).
Proof.
  revert w. induction entries as [|[rel flags] rest IH]; intros w.
  - exists w. split; [reflexivity | lia].
  - cbn [updateFiles]. unfold iobind.
    destruct (updateEntry_safe replacementMap rel flags w) as (w1 & -> & S1).
    destruct (IH w1) as (w2 & -> & S2). exists w2. split; [reflexivity | lia].
Qed.

Lemma main_updateEntry_safe (replacementMap : JsMap) (key : string)
    (value : list substitutionEnum) (w : World) :
  exists w', MainJs.updateEntry cwd replacementMap key value w = (Normal tt, w') /\
             size (files w') <= size (files w).
Proof.
  unfold MainJs.updateEntry, iobind at 1, liftC.
  rewrite calculateTargetFileFullPath_main, calculateTargetFileFullPath_total.
  set (target := path_dirname _ +:+ _).
  unfold iobind.
  assert (H1 : exists w1,
             (if includes value filename
              then MainJs.replaceFileName cwd key target
              else ioret tt) w = (Normal tt, w1) /\
             size (files w1) <= size (files w)).
  { destruct (includes value filename); [| now eexists].
    rewrite replaceFileName_main. apply replaceFileName_safe. }
  destruct H1 as (w1 & -> & S1).
  destruct (includes value contents).
  - rewrite replaceFileContents_main.
    destruct (replaceFileContents_safe target replacementMap w1) as (w2 & -> & S2).
    exists w2. split; [reflexivity | lia].
  - exists w1. split; [reflexivity | lia].
Qed.

Lemma main_updateFiles_safe (replacementMap : JsMap)
    (entries : list (string * list substitutionEnum)) (w : World) :
  exists w', MainJs.updateFiles cwd replacementMap entries w = (Normal tt, w') /\
             size (files w') <= size (files w).
Proof.
  revert w. induction entries as [|[key value] rest IH]; intros w.
  - exists w. split; [reflexivity | lia].
  - cbn [MainJs.updateFiles]. unfold iobind.
    destruct (main_updateEntry_safe replacementMap key value w) as (w1 & -> & S1).
    destruct (IH w1) as (w2 & -> & S2). exists w2. split; [reflexivity | lia].
Qed.


(** X16: the loop never increases the number of files: a contents
    rewrite keeps the set of paths and a rename replaces one path by
    another (both revisions). *)
Theorem X16_update_creates_no_file (replacementMap : ByType JsMap)
    (mainMap : JsMap) (entries : list (string * list substitutionEnum)) (w : World) :
  size (files (snd (updateFiles cwd replacementMap entries w))) <= size (files w) /\
  size (files (snd (MainJs.updateFiles cwd mainMap entries w))) <= size (files w).
Proof.
  split.
  - now destruct (updateFiles_safe replacementMap entries w) as (w1 & -> & S1).
  - now destruct (main_updateFiles_safe mainMap entries w) as (w1 & -> & S1).
Qed.

Lemma updateEntry_frame (replacementMap : ByType JsMap)
    (fileRelativePath : string) (flags : list substitutionEnum) (w : World)
    (target q : string) :
  calculateTargetFileFullPath (getFileFullPath cwd fileRelativePath)
    (of_filename replacementMap) = Normal target ->
  q <> resolve cwd (getFileFullPath cwd fileRelativePath) ->
  q <> resolve cwd target ->
  exists w',
    updateEntry cwd replacementMap fileRelativePath flags w = (Normal tt, w') /\
    files w' !! q = files w !! q.
Proof.
  intros Ht Hq Hqt. unfold updateEntry, iobind at 1.
  set (from := getFileFullPath cwd fileRelativePath) in *.
  assert (H1 : exists w1,
             (if includes flags contents
              then replaceFileContents cwd from (of_contents replacementMap)
              else ioret tt) w = (Normal tt, w1) /\
             files w1 !! q = files w !! q).
  { destruct (includes flags contents); [| now eexists].
    destruct (files w !! resolve cwd from) as [data|] eqn:E.
    - rewrite (replaceFileContents_present cwd from _ w data E). eexists.
      split; [reflexivity |]. cbn [files]. now rewrite lookup_insert_ne by congruence.
    - rewrite (replaceFileContents_absent cwd from _ w E). now eexists. }
  destruct H1 as (w1 & -> & F1).
  destruct (includes flags filename); cbn [negb]; [| now exists w1].
  unfold iobind, liftC. rewrite Ht.
  destruct (files w1 !! resolve cwd from) as [data|] eqn:E.
  - rewrite (replaceFileName_present cwd from target w1 data E). eexists.
    split; [reflexivity |]. cbn [files].
    rewrite lookup_insert_ne by congruence.
    now rewrite lookup_delete_ne by congruence.
  - rewrite (replaceFileName_absent cwd from target w1 E). now exists w1.
Qed.

(** X15: the loop body of the latest revision changes no file other than
    the entry's own path and the target path computed for it. *)
Theorem X15_updateEntry_frame (replacementMap : ByType JsMap)
    (fileRelativePath : string) (flags : list substitutionEnum) (w : World)
    (target q : string) :
  calculateTargetFileFullPath (getFileFullPath cwd fileRelativePath)
    (of_filename replacementMap) = Normal target ->
  q <> resolve cwd (getFileFullPath cwd fileRelativePath) ->
  q <> resolve cwd target ->
  files (snd (updateEntry cwd replacementMap fileRelativePath flags w)) !! q =
  files w !! q.
Proof.
  intros Ht Hq Hqt.
  now destruct (updateEntry_frame replacementMap fileRelativePath flags w target q
                  Ht Hq Hqt) as (w' & -> & F).
Qed.


(** X18: in the previous revision the loop body works in the other
    order: for an entry with both flags whose file exists, the file is
    renamed first and the contents are then read, truncated and written
    at the target path. *)
Theorem X18_main_renames_first
    (replacementMap : JsMap) (key : string) (value : list substitutionEnum)
    (w : World) (data : string) :
  includes value filename = true ->
  includes value contents = true ->
  files w !! resolve cwd key = Some data ->
  exists target updated,
    MainJs.calculateTargetFileFullPath cwd key replacementMap = Normal target /\
    MainJs.replaceStringByMapParts data replacementMap = Normal updated /\
    MainJs.updateEntry cwd replacementMap key value w =
    (Normal tt,
     {| files := <[resolve cwd target := updated]>
                   (delete (resolve cwd key) (files w));
        trace := trace w ++ [ OpRename (resolve cwd key) (resolve cwd target);
                              OpReadFile (resolve cwd target);
                              OpTruncate (resolve cwd target);
                              OpWriteFile (resolve cwd target) updated ] |}).
Proof.
  intros Hf Hc Hdata.
  destruct (MainJs_rename_before_contents cwd replacementMap key value w data
              Hf Hc Hdata) as (target & Ht & Hrun).
  exists target, (substituted data replacementMap).
  split; [exact Ht |]. split; [| exact Hrun].
  rewrite replaceStringByMapParts_main. apply replaceStringByMapParts_total.
Qed.

End MoreFileProperties.


Lemma X15_updateEntry_frame_witness :
  let w := {| files := {[ "/w/src/custom-element.ts" := "<custom-element>" ;
                          "/w/README.md" := "custom-element" ]}; trace := [] |} in
  let rm := {| of_filename := [("custom-element", "foo-bar-element")];
               of_contents := [("custom-element", "foo-bar")] |} in
  files (snd (updateEntry "/w" rm "src/custom-element.ts" [filename; contents] w))
    !! "/w/README.md" = Some "custom-element".
Proof.
  cbn zeta.
  rewrite (X15_updateEntry_frame "/w" _ "src/custom-element.ts" [filename; contents] _
             "/w/src/foo-bar-element.ts" "/w/README.md").
  - vm_compute. reflexivity.
  - vm_compute. reflexivity.
  - vm_compute. discriminate.
  - vm_compute. discriminate.
Defined.


Lemma X18_main_renames_first_witness :
  let w := {| files := {[ "/w/src/custom-element.ts" := "<custom-element>" ]};
              trace := [] |} in
  exists target updated,
    MainJs.calculateTargetFileFullPath "/w" "src/custom-element.ts"
      [("custom-element", "foo-bar")] = Normal target /\
    MainJs.replaceStringByMapParts "<custom-element>" [("custom-element", "foo-bar")]
      = Normal updated /\
    MainJs.updateEntry "/w" [("custom-element", "foo-bar")] "src/custom-element.ts"
      [filename; contents] w =
    (Normal tt,
     {| files := <[resolve "/w" target := updated]>
                   (delete (resolve "/w" "src/custom-element.ts") (files w));
        trace := trace w ++
                 [ OpRename (resolve "/w" "src/custom-element.ts") (resolve "/w" target);
                   OpReadFile (resolve "/w" target);
                   OpTruncate (resolve "/w" target);
                   OpWriteFile (resolve "/w" target) updated ] |}).
Proof.
  cbn zeta.
  apply (X18_main_renames_first "/w" [("custom-element", "foo-bar")]
           "src/custom-element.ts" [filename; contents]
           {| files := {[ "/w/src/custom-element.ts" := "<custom-element>" ]};
              trace := [] |} "<custom-element>").
  - reflexivity.
  - reflexivity.
  - vm_compute. reflexivity.
Defined.

